(** * Espruino heap snapshots: the RLE codec and the flash save/load path

  A shallow embedding of [src/src/jswrap_flash.c]: the run-length
  encoder and decoder ([rle_encode], [rle_decode]), the flash-backend
  callbacks ([jsfSaveToFlash_writecb], [jsfSaveToFlash_checkcb],
  [jsfLoadFromFlash_readcb]) and the orchestrators ([jsfSaveToFlash],
  [jsfLoadFromFlash], [jsfFlashContainsCode]) of the non-LINUX build.

  Conventions.
  - [unsigned char] is [byte]; [int] is [Z]; [uint32_t] is a [Z] kept in
    [0, 2^32) with the wrap-around written out ([u32]).
  - A buffer [(data, dataLen)] read through [*(data++)] is a [list byte].
  - A callback [cb(ch, cbdata)] is a function on an explicit state that
    stands for everything the callback can reach through [cbdata] and
    the peripherals. *)

From Stdlib Require Import ZArith List Lia Bool Arith.
From coqutil Require Import Byte.
Import ListNotations.
Local Open Scope Z_scope.

(** ** Machine integers *)

Definition u32 (z : Z) : Z := z mod 2 ^ 32.

(** ** Simple RLE encoder / decoder *)

Module RLE.

(** The inner loop of [rle_encode]:
    [while (dataLen && lastCh==*data && cnt<255) { data++; dataLen--; cnt++; }] *)
Fixpoint rle_scan (lastCh : Z) (data : list byte) (cnt : Z) : list byte * Z :=
  match data with
  | d :: data' =>
      if (lastCh =? byte.unsigned d) && (cnt <? 255)
      then rle_scan lastCh data' (cnt + 1)
      else (data, cnt)
  | [] => ([], cnt)
  end.

Section Encode.
Context {St : Type}.
(** the push callback, [void callback(unsigned char ch, uint32_t *cbdata)] *)
Variable callback : byte -> St -> St.

(** The outer loop [while (dataLen) { ... }].  Every iteration consumes
    at least one input byte, so [dataLen] iterations always suffice:
    [fuel] bounds the number of iterations. *)
Fixpoint rle_encode_loop (fuel : nat) (lastCh : Z) (data : list byte)
         (cbdata : St) : St :=
  match fuel with
  | O => cbdata
  | S fuel' =>
      match data with
      | [] => cbdata
      | ch :: data1 =>
          let cbdata1 := callback ch cbdata in
          if byte.unsigned ch =? lastCh then
            let '(data2, cnt) := rle_scan lastCh data1 0 in
            rle_encode_loop fuel' (byte.unsigned ch) data2
                            (callback (byte.of_Z cnt) cbdata1)
          else
            rle_encode_loop fuel' (byte.unsigned ch) data1 cbdata1
      end
  end.

(** [void rle_encode(unsigned char *data, size_t dataLen, callback, cbdata)]:
    [int lastCh = -1; // not a valid char] *)
Definition rle_encode (data : list byte) (cbdata : St) : St :=
  rle_encode_loop (length data) (-1) data cbdata.
End Encode.

(** The destination of [*(data++) = x]: the pointer and the stores made
    so far, oldest first, each with the address it went to. *)
Record dest := { d_ptr : Z; d_stores : list (Z * byte) }.

Definition store (d : dest) (b : byte) : dest :=
  {| d_ptr := d_ptr d + 1; d_stores := d_stores d ++ [(d_ptr d, b)] |}.

(** [while (cnt-->0) { *(data++) = (unsigned char)ch; }] *)
Fixpoint store_run (n : nat) (d : dest) (b : byte) : dest :=
  match n with
  | O => d
  | S n' => store_run n' (store d b) b
  end.

Section Decode.
Context {St : Type}.
(** the pull callback, [int callback(uint32_t *cbdata)] *)
Variable callback : St -> Z * St.

(** [while (true) { ... }]: the loop ends only when the callback
    reports a negative value; [None] when [fuel] iterations were not
    enough to see that. *)
Fixpoint rle_decode_loop (fuel : nat) (lastCh : Z) (cbdata : St) (d : dest)
  : option (St * dest) :=
  match fuel with
  | O => None
  | S fuel' =>
      let '(ch, cbdata1) := callback cbdata in
      if ch <? 0 then Some (cbdata1, d)
      else
        let d1 := store d (byte.of_Z ch) in
        if ch =? lastCh then
          let '(cnt, cbdata2) := callback cbdata1 in
          rle_decode_loop fuel' ch cbdata2
                          (store_run (Z.to_nat cnt) d1 (byte.of_Z ch))
        else
          rle_decode_loop fuel' ch cbdata1 d1
  end.

(** [void rle_decode(callback, cbdata, unsigned char *data)]:
    [int lastCh = -256; // not a valid char] *)
Definition rle_decode (fuel : nat) (cbdata : St) (data : Z)
  : option (St * dest) :=
  rle_decode_loop fuel (-256) cbdata {| d_ptr := data; d_stores := [] |}.
End Decode.

(** *** Callbacks over in-memory streams *)

(** A push callback that appends every byte it is given to a buffer. *)
Definition push_byte (ch : byte) (out : list byte) : list byte := out ++ [ch].

(** A push callback that only counts its invocations. *)
Definition count_call (_ : byte) (calls : nat) : nat := S calls.

(** A pull callback over a finite stream: each byte in order, then a
  negative end-of-stream value for ever. *)
Definition pull_byte (s : list byte) : Z * list byte :=
match s with
| [] => (-1, [])
| b :: s' => (byte.unsigned b, s')
end.

(** The bytes [rle_encode] pushes for [data], in order. *)
Definition encode_bytes (data : list byte) : list byte :=
  rle_encode push_byte data [].

(** *** Auxiliary notions used to state the properties of the codec *)

(** The sequence of callback arguments of [rle_encode_loop], as a list:
    [rle_encode_loop cb] is the fold of [cb] over it ([encode_loop_stream]). *)
Fixpoint rle_stream (fuel : nat) (lastCh : Z) (data : list byte) : list byte :=
  match fuel with
  | O => []
  | S fuel' =>
      match data with
      | [] => []
      | ch :: data1 =>
          if byte.unsigned ch =? lastCh then
            let '(data2, cnt) := rle_scan lastCh data1 0 in
            ch :: byte.of_Z cnt :: rle_stream fuel' (byte.unsigned ch) data2
          else
            ch :: rle_stream fuel' (byte.unsigned ch) data1
      end
  end.

(** The bytes pushed for [data] when the previous literal is [lastCh]. *)
Definition enc (lastCh : Z) (data : list byte) : list byte :=
  rle_stream (length data) lastCh data.

(** The stores [*(data++) = b] for each [b] of [l] in turn, from address [p]. *)
Fixpoint bytes_at (p : Z) (l : list byte) : list (Z * byte) :=
  match l with
  | [] => []
  | b :: l' => (p, b) :: bytes_at (p + 1) l'
  end.

(** [non_repeating lastCh l]: no byte of [l] equals the byte before it,
    [lastCh] being what precedes the first one. *)
Fixpoint non_repeating (lastCh : Z) (l : list byte) : bool :=
  match l with
  | [] => true
  | c :: l' => negb (byte.unsigned c =? lastCh) && non_repeating (byte.unsigned c) l'
  end.

(** The last byte of [l] as an [int], [lastCh] when [l] is empty. *)
Definition last_ch (lastCh : Z) (l : list byte) : Z :=
  fold_left (fun _ c => byte.unsigned c) l lastCh.

(** The output bytes that a run of [n] bytes [b] between [pre] and [post]
    accounts for: everything pushed for [pre ++ run ++ post] but one byte
    for each byte of [pre] and of [post]. *)
Definition run_output_bytes (pre : list byte) (b : byte) (n : nat)
           (post : list byte) : Z :=
  Z.of_nat (length (encode_bytes (pre ++ repeat b n ++ post)))
  - Z.of_nat (length pre) - Z.of_nat (length post).

(** The cost of a run of [n] bytes in the words of the specification:
    [2 + ceil(max(0, n-2)/255)]. *)
Definition spec_run_cost (n : Z) : Z := 2 + (Z.max 0 (n - 2) + 254) / 255.

(** The cost of a run of [n >= 1] bytes as [rle_encode] produces it: the
    first byte, then a literal and a count for every 256 further bytes. *)
Definition run_cost (n : Z) : Z := 1 + 2 * ((n - 1 + 255) / 256).

(** Every byte of [l] twice. *)
Fixpoint paired (l : list byte) : list byte :=
  match l with
  | [] => []
  | x :: l' => x :: x :: paired l'
  end.

(** The heap of the example of the specification: five bytes [0x41],
    then one byte [0x42]. *)
Definition example_heap : list byte :=
  map byte.of_Z [0x41; 0x41; 0x41; 0x41; 0x41; 0x42].

End RLE.


(** ** Saving to and loading from flash (the build without [LINUX]) *)

Module Flash.
Import RLE.

(** What [jsiConsolePrint] and [jsiConsolePrintf] are called with. *)
Inductive console_msg : Type :=
| MsgErasing                                 (* Erasing Flash... *)
| MsgDot                                     (* . *)
| MsgWriting                                 (* Writing... *)
| MsgTooBig (writtenBytes available : Z)     (* ERROR: Too big to save to flash (%d vs %d bytes) *)
| MsgCompressed (dataSize writtenBytes : Z)  (* Compressed %d bytes to %d *)
| MsgChecking                                (* Checking... *)
| MsgMagicWrong                              (* Flash Magic Byte is wrong *)
| MsgErrors (errors : Z)                     (* There were %d errors! *)
| MsgDone                                    (* Done! *)
| MsgNoCode                                  (* No code in flash! *)
| MsgLoading (bytes : Z).                    (* Loading %d bytes from flash... *)

(** What the save and load paths do to the outside, in program order. *)
Inductive event : Type :=
| EvErase (pageStart : Z)                    (* jshFlashErasePage(pageStart) *)
| EvWrite (addr : Z) (buf : list byte)       (* jshFlashWrite(buf, addr, len) *)
| EvPrint (msg : console_msg).

(** The board: the flash driver of [jshardware.h] and the constants of the
    board's header, which [jswrap_flash.c] uses and does not define.  [jshFlashGetPage]
    gives [(pageStart, pageLength)] or nothing; [jshFlashReadByte f a] is
    what [jshFlashRead(&c, a, 1)] stores into [c]. *)
Class Platform : Type := {
  flash : Type;
  jshFlashGetPage : Z -> option (Z * Z);
  jshFlashErasePage : flash -> Z -> flash;
  jshFlashWrite : flash -> list byte -> Z -> flash;
  jshFlashReadByte : flash -> Z -> byte;
  FLASH_SAVED_CODE_START : Z;
  FLASH_MAGIC_LOCATION : Z;
  FLASH_MAGIC : Z
}.

(** A [uint32_t] in memory, least significant byte first (the boards this
    build is for are little-endian ARM cores). *)
Definition le_bytes (w : Z) : list byte :=
  [byte.of_Z w; byte.of_Z (Z.shiftr w 8);
   byte.of_Z (Z.shiftr w 16); byte.of_Z (Z.shiftr w 24)].

Definition le_word (bs : list byte) : Z :=
  fold_right (fun b acc => byte.unsigned b + 256 * acc) 0 bs.

(** [(int)x] for a 32-bit [int]. *)
Definition to_int (x : Z) : Z :=
  if u32 x <? 2 ^ 31 then u32 x else u32 x - 2 ^ 32.

(** The array [uint32_t cbData[3]] that the callbacks get. *)
Record cbdata : Type := { cb0 : Z; cb1 : Z; cb2 : Z }.

Definition is_write (e : event) : bool :=
  match e with EvWrite _ _ => true | _ => false end.

(** The calls of [jshFlashWrite] in a trace. *)
Definition flash_writes (tr : list event) : list event := filter is_write tr.

(** [e] is a flash write that changes the byte at address [x]. *)
Definition touches (e : event) (x : Z) : Prop :=
  match e with
  | EvWrite a buf => a <= x < a + Z.of_nat (length buf)
  | _ => False
  end.

(** Every flash write of [evs] stays inside [lo, hi). *)
Definition writes_within (lo hi : Z) (evs : list event) : Prop :=
  Forall (fun e => forall x, touches e x -> lo <= x < hi) evs.

Section WithPlatform.
Context {P : Platform}.

(** [jshFlashRead(buf, addr, len)]: the bytes at [addr], [addr+1], ... *)
Definition jshFlashRead (f : flash) (addr : Z) (len : nat) : list byte :=
  map (fun i => jshFlashReadByte f (addr + Z.of_nat i)) (seq 0 len).

(** The flash and the trace of what was done so far. *)
Record world : Type := { w_flash : flash; w_trace : list event }.

Definition jsiConsolePrint (m : console_msg) (w : world) : world :=
  {| w_flash := w_flash w; w_trace := w_trace w ++ [EvPrint m] |}.

Definition flash_erase (pageStart : Z) (w : world) : world :=
  {| w_flash := jshFlashErasePage (w_flash w) pageStart;
     w_trace := w_trace w ++ [EvErase pageStart] |}.

Definition flash_write (buf : list byte) (addr : Z) (w : world) : world :=
  {| w_flash := jshFlashWrite (w_flash w) buf addr;
     w_trace := w_trace w ++ [EvWrite addr buf] |}.

(** [void jsfSaveToFlash_writecb(unsigned char ch, uint32_t *cbdata)],
    [cbdata = uint32_t[end_address, address, data]]. *)
Definition jsfSaveToFlash_writecb (ch : byte) (s : cbdata * world)
  : cbdata * world :=
  let '(cb, w) := s in
  let '(cb, w) :=
    (* Only write if we can fit in flash *)
    if cb1 cb <? cb0 cb then
      (* write only a word at a time *)
      let cb := {| cb0 := cb0 cb; cb1 := cb1 cb;
                   cb2 := Z.lor (u32 (Z.shiftl (byte.unsigned ch) 24))
                                (Z.shiftr (cb2 cb) 8) |} in
      if Z.land (cb1 cb) 3 =? 3
      then (cb, flash_write (le_bytes (cb2 cb))
                            (Z.land (cb1 cb) (u32 (Z.lnot 3))) w)
      else (cb, w)
    else (cb, w) in
  (* inc address ptr *)
  let cb := {| cb0 := cb0 cb; cb1 := u32 (cb1 cb + 1); cb2 := cb2 cb |} in
  if Z.land (cb1 cb) 1023 =? 0 then (cb, jsiConsolePrint MsgDot w) else (cb, w).

(** The write callback called with each byte of [bytes] in turn. *)
Definition run_writecb (bytes : list byte) (s : cbdata * world)
  : cbdata * world :=
  fold_left (fun s ch => jsfSaveToFlash_writecb ch s) bytes s.

(** [void jsfSaveToFlash_checkcb(unsigned char ch, uint32_t *cbdata)],
    [cbdata = uint32_t[address, errorcount]]. *)
Definition jsfSaveToFlash_checkcb (ch : byte) (s : cbdata * world)
  : cbdata * world :=
  let '(cb, w) := s in
  let data := jshFlashReadByte (w_flash w) (cb0 cb) in
  let cb := {| cb0 := u32 (cb0 cb + 1); cb1 := cb1 cb; cb2 := cb2 cb |} in
  if negb (byte.unsigned data =? byte.unsigned ch)
  then ({| cb0 := cb0 cb; cb1 := u32 (cb1 cb + 1); cb2 := cb2 cb |}, w)
  else (cb, w).

(** [int jsfLoadFromFlash_readcb(uint32_t *cbdata)],
    [cbdata = uint32_t[end_address, address]]. *)
Definition jsfLoadFromFlash_readcb (f : flash) (cb : cbdata) : Z * cbdata :=
  if cb1 cb >=? cb0 cb then (-1, cb) (* at end *)
  else
    let data := jshFlashReadByte f (cb1 cb) in
    (byte.unsigned data,
     {| cb0 := cb0 cb; cb1 := u32 (cb1 cb + 1); cb2 := cb2 cb |}).

(** The bytes the read callback will give from the state [cb] on. *)
Definition flash_stream (f : flash) (cb : cbdata) : list byte :=
  jshFlashRead f (cb1 cb) (Z.to_nat (cb0 cb - cb1 cb)).

(** [bool jsfFlashContainsCode()]: [int magic] read from
    [FLASH_MAGIC_LOCATION] and compared with [(int)FLASH_MAGIC]. *)
Definition jsfFlashContainsCode (f : flash) : bool :=
  let magic := to_int (le_word (jshFlashRead f FLASH_MAGIC_LOCATION 4)) in
  magic =? to_int FLASH_MAGIC.

(** The loop
    [while (pageStart+pageLength < FLASH_MAGIC_LOCATION) { ... }]
    of [jsfSaveToFlash]; [None] when [fuel] iterations did not end it. *)
Fixpoint erase_loop (fuel : nat) (pageStart pageLength : Z) (w : world)
  : option world :=
  if u32 (pageStart + pageLength) <? FLASH_MAGIC_LOCATION then
    match fuel with
    | O => None
    | S fuel' =>
        let w := jsiConsolePrint MsgDot w in
        let addr := u32 (pageStart + pageLength) in (* next page *)
        match jshFlashGetPage addr with
        | None => Some w (* break *)
        | Some (pageStart, pageLength) =>
            erase_loop fuel' pageStart pageLength (flash_erase pageStart w)
        end
    end
  else Some w.

(** What the loop needs of [jshFlashGetPage] to end: the page of an
    address contains it and ends inside the 32-bit address space. *)
Definition page_ok : Prop :=
  forall addr pageStart pageLength,
    jshFlashGetPage addr = Some (pageStart, pageLength) ->
    pageStart <= addr < pageStart + pageLength
    /\ pageStart + pageLength < 2 ^ 32.

(** The erasing part of [jsfSaveToFlash]. *)
Definition erase_saved_code (fuel : nat) (w : world) : option world :=
  let w := jsiConsolePrint MsgErasing w in
  let addr := FLASH_SAVED_CODE_START in
  match jshFlashGetPage addr with
  | Some (pageStart, pageLength) =>
      erase_loop fuel pageStart pageLength (flash_erase pageStart w)
  | None => Some w
  end.

Definition rleStart : Z := u32 (FLASH_SAVED_CODE_START + 4).

(** The writing part of [jsfSaveToFlash]: the heap through [rle_encode]
    into [jsfSaveToFlash_writecb], then three more bytes to
    make sure we write everything in buffer.  Gives [endOfData], the
    array and the world. *)
Definition write_saved_code (heap : list byte) (w : world)
  : Z * (cbdata * world) :=
  let cbData := {| cb0 := FLASH_MAGIC_LOCATION; (* end of available flash *)
                   cb1 := rleStart;
                   cb2 := 0 |} in
  let w := jsiConsolePrint MsgWriting w in
  let s := rle_encode jsfSaveToFlash_writecb heap (cbData, w) in
  let endOfData := cb1 (fst s) in
  let s := jsfSaveToFlash_writecb (byte.of_Z 0) s in
  let s := jsfSaveToFlash_writecb (byte.of_Z 0) s in
  let s := jsfSaveToFlash_writecb (byte.of_Z 0) s in
  (endOfData, s).

(** [void jsfSaveToFlash()].  [heap] is the [dataSize] bytes at
    [_jsvGetAddressOf(1)]. *)
Definition jsfSaveToFlash (fuel : nat) (heap : list byte) (w : world)
  : option world :=
  let dataSize := u32 (Z.of_nat (length heap)) in
  match erase_saved_code fuel w with
  | None => None
  | Some w =>
      let '(endOfData, (cbData, w)) := write_saved_code heap w in
      let writtenBytes := u32 (endOfData - FLASH_SAVED_CODE_START) in
      if cb1 cbData >=? cb0 cbData then
        Some (jsiConsolePrint
                (MsgTooBig writtenBytes
                           (u32 (FLASH_MAGIC_LOCATION - FLASH_SAVED_CODE_START)))
                w)
      else
        let w := jsiConsolePrint (MsgCompressed dataSize writtenBytes) w in
        (* write position of end of data, at start of address space *)
        let w := flash_write (le_bytes endOfData) FLASH_SAVED_CODE_START w in
        let magic := u32 FLASH_MAGIC in
        let w := flash_write (le_bytes magic) FLASH_MAGIC_LOCATION w in
        let w := jsiConsolePrint MsgChecking w in
        let cbData := {| cb0 := rleStart;
                         cb1 := 0; (* increment if fails *)
                         cb2 := cb2 cbData |} in
        let '(cbData, w) := rle_encode jsfSaveToFlash_checkcb heap (cbData, w) in
        let errors := cb1 cbData in
        let '(errors, w) :=
          if negb (jsfFlashContainsCode (w_flash w))
          then (u32 (errors + 1), jsiConsolePrint MsgMagicWrong w)
          else (errors, w) in
        Some (if negb (errors =? 0)
              then jsiConsolePrint (MsgErrors errors) w
              else jsiConsolePrint MsgDone w)
  end.

(** [void jsfLoadFromFlash()].  [basePtr] is [_jsvGetAddressOf(1)]; the
    result has the stores made through it. *)
Definition jsfLoadFromFlash (fuel : nat) (basePtr : Z) (w : world)
  : option (world * dest) :=
  if negb (jsfFlashContainsCode (w_flash w)) then
    Some (jsiConsolePrint MsgNoCode w, {| d_ptr := basePtr; d_stores := [] |})
  else
    let cbData :=
      {| cb0 := le_word (jshFlashRead (w_flash w) FLASH_SAVED_CODE_START 4);
         cb1 := u32 (FLASH_SAVED_CODE_START + 4); (* start address *)
         cb2 := 0 |} in
    let w := jsiConsolePrint
               (MsgLoading (u32 (cb0 cbData - FLASH_SAVED_CODE_START))) w in
    match rle_decode (jsfLoadFromFlash_readcb (w_flash w)) fuel cbData basePtr with
    | None => None
    | Some (_, d) => Some (w, d)
    end.

(** *** Notions used to state further properties *)

Definition is_erase (e : event) : bool :=
  match e with EvErase _ => true | _ => false end.

Definition no_erase (evs : list event) : Prop :=
  Forall (fun e => is_erase e = false) evs.

(** [e] is not an erase and, if it is a write, it is a write of four
    bytes at a word address. *)
Definition word_write (e : event) : Prop :=
  match e with
  | EvWrite a buf => a mod 4 = 0 /\ length buf = 4%nat
  | EvErase _ => False
  | EvPrint _ => True
  end.

(** What an event does to the flash. *)
Definition apply_event (f : flash) (e : event) : flash :=
  match e with
  | EvErase pageStart => jshFlashErasePage f pageStart
  | EvWrite addr buf => jshFlashWrite f buf addr
  | EvPrint _ => f
  end.

Definition replay (f : flash) (evs : list event) : flash :=
  fold_left apply_event evs f.

(** From [w] the events [evs], and nothing else, lead to [w']. *)
Definition steps (w : world) (evs : list event) (w' : world) : Prop :=
  w_trace w' = w_trace w ++ evs /\ w_flash w' = replay (w_flash w) evs.

(** The number of bytes of [bs] that differ from the flash at [addr],
    [addr+1], ... *)
Fixpoint mismatches (f : flash) (addr : Z) (bs : list byte) : nat :=
  match bs with
  | [] => 0
  | b :: bs' =>
      (if byte.unsigned (jshFlashReadByte f addr) =? byte.unsigned b
       then 0 else 1) + mismatches f (addr + 1) bs'
  end.

(** A flash as the driver is meant to give it: erasing a page sets its
    bytes to [0xFF] and leaves the others; writing can only clear bits of
    the bytes written and leaves the others. *)
Definition erase_law : Prop :=
  forall f addr pageStart pageLength x,
    jshFlashGetPage addr = Some (pageStart, pageLength) ->
    jshFlashReadByte (jshFlashErasePage f pageStart) x
    = if (pageStart <=? x) && (x <? pageStart + pageLength)
      then byte.of_Z 0xFF else jshFlashReadByte f x.

Definition write_law : Prop :=
  forall f buf addr x,
    jshFlashReadByte (jshFlashWrite f buf addr) x
    = if (addr <=? x) && (x <? addr + Z.of_nat (length buf))
      then byte.and (jshFlashReadByte f x)
                    (nth (Z.to_nat (x - addr)) buf (byte.of_Z 0xFF))
      else jshFlashReadByte f x.

(** The layout the board's header is meant to give: every address of the
    region for saved code is in a page, and the page in which the magic
    word starts holds all four bytes of it. *)
Definition region_paged : Prop :=
  forall addr, FLASH_SAVED_CODE_START <= addr < FLASH_MAGIC_LOCATION ->
    jshFlashGetPage addr <> None.

Definition magic_in_page : Prop :=
  forall addr pageStart pageLength,
    jshFlashGetPage addr = Some (pageStart, pageLength) ->
    FLASH_MAGIC_LOCATION <= pageStart + pageLength ->
    FLASH_MAGIC_LOCATION + 4 <= pageStart + pageLength.

End WithPlatform.

(** The accumulator [acc] of the write callback holds the bytes [pend]
    pushed since the last word boundary: they are its top bytes, the
    oldest lowest. *)
Definition acc_holds (acc : Z) (pend : list byte) : Prop :=
  0 <= acc < 2 ^ 32
  /\ acc / 2 ^ (8 * (4 - Z.of_nat (length pend))) = le_word pend.

(** The flash writes that store [bs] four bytes at a time from the word
    address [a]; bytes left over after the last whole word are not
    written. *)
Fixpoint words_at (a : Z) (bs : list byte) : list event :=
  match bs with
  | b0 :: b1 :: b2 :: b3 :: rest =>
      EvWrite a [b0; b1; b2; b3] :: words_at (a + 4) rest
  | _ => []
  end.

(** *** A small board to run the code on

    Four pages of 16 bytes from address 0; the saved code starts at 16
    and the magic word is at 44.  Erasing sets a page to [0xFF]; writing
    can only clear bits. *)

Definition sim_get_page (addr : Z) : option (Z * Z) :=
  if (0 <=? addr) && (addr <? 64) then Some (16 * (addr / 16), 16) else None.

Definition sim_erase (f : Z -> byte) (pageStart : Z) : Z -> byte :=
  fun a =>
    match sim_get_page pageStart with
    | Some (s, l) => if (s <=? a) && (a <? s + l) then byte.of_Z 0xFF else f a
    | None => f a
    end.

Definition sim_write (f : Z -> byte) (buf : list byte) (addr : Z) : Z -> byte :=
  fun a =>
    if (addr <=? a) && (a <? addr + Z.of_nat (length buf))
    then byte.and (f a) (nth (Z.to_nat (a - addr)) buf (byte.of_Z 0xFF))
    else f a.

Definition sim : Platform :=
  {| flash := Z -> byte;
     jshFlashGetPage := sim_get_page;
     jshFlashErasePage := sim_erase;
     jshFlashWrite := sim_write;
     jshFlashReadByte := fun f a => f a;
     FLASH_SAVED_CODE_START := 16;
     FLASH_MAGIC_LOCATION := 44;
     FLASH_MAGIC := 0xDEADBEEF |}.

(** The board with its flash erased and nothing done yet. *)
Definition sim_blank : @world sim :=
  {| w_flash := (fun _ => byte.of_Z 0xFF) : @flash sim; w_trace := [] |}.

(** The board with the bytes [bs] at address [addr] and the rest erased. *)
Definition sim_image (addr : Z) (bs : list byte) : @world sim :=
  {| w_flash := sim_write (fun _ => byte.of_Z 0xFF) bs addr : @flash sim;
     w_trace := [] |}.

(** The bytes [1, 2, ..., n]: a heap without two equal neighbours. *)
Definition bytes_1_to (n : nat) : list byte :=
  map (fun i => byte.of_Z (Z.of_nat i)) (seq 1 n).

(** The board after [example_heap] was saved on the blank board. *)
Definition sim_saved : @world sim :=
  match jsfSaveToFlash 44 example_heap sim_blank with
  | Some w => w
  | None => sim_blank
  end.

(** A board whose snapshot is damaged: the magic word is there and the
    header gives 23 as the end address, but the three bytes of the stream
    are [0x41, 0x41, 0xFF], which decode to 257 bytes. *)
Definition sim_corrupt : @world sim :=
  sim_image 16 (le_bytes 23 ++ map byte.of_Z [0x41; 0x41; 0xFF]
                ++ repeat (byte.of_Z 0xFF) 21 ++ le_bytes 0xDEADBEEF).

End Flash.


(** ** Saving to and loading from a file (the build with [LINUX], without
    [DEBUG]) *)

Module Linux.
Import RLE Flash.

(** What [jsiConsolePrint] and [jsiConsolePrintf] are called with. *)
Inductive host_msg : Type :=
| MsgSaving (bytes : Z)                      (* Saving %d bytes... *)
| MsgSaved                                   (* Done! *)
| MsgOpenFailed                              (* File Open Failed... *)
| MsgDecompressing (bytes : Z).              (* Decompressing to %d bytes... *)

(** The host: the bytes of the file [espruino.state], if there is one;
    whether [fopen] for writing succeeds; what was printed; and the
    number of variables, as [jsvGetMemoryTotal] gives it and
    [jsvSetMemoryTotal] sets it. *)
Record host : Type := {
  h_file : option (list byte);
  h_writable : bool;
  h_console : list host_msg;
  h_memTotal : Z
}.

Definition print (m : host_msg) (h : host) : host :=
  {| h_file := h_file h; h_writable := h_writable h;
     h_console := h_console h ++ [m]; h_memTotal := h_memTotal h |}.

Definition set_file (f : list byte) (h : host) : host :=
  {| h_file := Some f; h_writable := h_writable h;
     h_console := h_console h; h_memTotal := h_memTotal h |}.

Definition jsvSetMemoryTotal (jsVarCount : Z) (h : host) : host :=
  {| h_file := h_file h; h_writable := h_writable h;
     h_console := h_console h; h_memTotal := jsVarCount |}.

(** [void jsfSaveToFlash_writecb(unsigned char ch, uint32_t *cbdata)]:
    [fwrite(&ch,1,1,(FILE* )cbdata)]; the state is what was written to the
    file so far. *)
Definition jsfSaveToFlash_writecb (ch : byte) (f : list byte) : list byte :=
  f ++ [ch].

(** [int jsfLoadFromFlash_readcb(uint32_t *cbdata)]:
    [if (fread(&ch,1,1,(FILE* )cbdata)==1) return ch; return -1;]; the
    state is what is left of the file to read. *)
Definition jsfLoadFromFlash_readcb (f : list byte) : Z * list byte :=
  match f with
  | ch :: f' => (byte.unsigned ch, f')
  | [] => (-1, [])
  end.

Section WithJsVar.
(** [sizeof(JsVar)] *)
Variable sizeof_JsVar : Z.

(** [void jsfSaveToFlash()].  [ram] is the memory from
    [_jsvGetAddressOf(1)] on, of which [jsVarCount*sizeof(JsVar)] bytes
    are read. *)
Definition jsfSaveToFlash (ram : list byte) (h : host) : host :=
  if h_writable h then
    let jsVarCount := u32 (h_memTotal h) in
    let h := print (MsgSaving (jsVarCount * sizeof_JsVar)) h in
    (* fwrite(&jsVarCount, sizeof(unsigned int), 1, f), on a little-endian
       host *)
    let f := le_bytes jsVarCount in
    let f := rle_encode jsfSaveToFlash_writecb
                        (firstn (Z.to_nat (jsVarCount * sizeof_JsVar)) ram) f in
    print MsgSaved (set_file f h)
  else print MsgOpenFailed h.

(** [void jsfLoadFromFlash()].  [basePtr] is [_jsvGetAddressOf(1)].
    [None] when [fuel] iterations of the decoder were not enough, and
    when the file has fewer than four bytes, so that [jsVarCount] is used
    without having been read. *)
Definition jsfLoadFromFlash (fuel : nat) (basePtr : Z) (h : host)
  : option (host * dest) :=
  match h_file h with
  | Some f =>
      if (length f <? 4)%nat then None
      else
        (* fread(&jsVarCount, sizeof(unsigned int), 1, f) *)
        let jsVarCount := le_word (firstn 4 f) in
        let h := print (MsgDecompressing (jsVarCount * sizeof_JsVar)) h in
        let h := jsvSetMemoryTotal jsVarCount h in
        match rle_decode jsfLoadFromFlash_readcb fuel (skipn 4 f) basePtr with
        | Some (_, d) => Some (h, d)
        | None => None
        end
  | None =>
      Some (print MsgOpenFailed h, {| d_ptr := basePtr; d_stores := [] |})
  end.

End WithJsVar.

(** [bool jsfFlashContainsCode()]: whether the file can be opened. *)
Definition jsfFlashContainsCode (h : host) : bool :=
  match h_file h with Some _ => true | None => false end.

(** A host without a state file, on which two variables are allocated. *)
Definition host0 : host :=
  {| h_file := None; h_writable := true; h_console := []; h_memTotal := 2 |}.

End Linux.
(** * Properties of the codec *)

Import RLE.

Lemma u32_range z : 0 <= u32 z < 2 ^ 32.
Proof. unfold u32. apply Z.mod_pos_bound. reflexivity. Qed.

Lemma u32_small z : 0 <= z < 2 ^ 32 -> u32 z = z.
Proof. unfold u32. intros. now apply Z.mod_small. Qed.

Lemma unsigned_eqb_iff (a b : byte) :
  (byte.unsigned a =? byte.unsigned b) = true <-> a = b.
Proof.
  rewrite Z.eqb_eq. split; [apply byte.unsigned_inj | congruence].
Qed.

Lemma of_Z_small z : 0 <= z < 256 -> byte.unsigned (byte.of_Z z) = z.
Proof.
  intros. rewrite byte.unsigned_of_Z. unfold byte.wrap.
  apply Z.mod_small. change (2 ^ 8) with 256. lia.
Qed.

(** ** The scan of a run *)

Lemma rle_scan_spec (b : byte) :
  forall data cnt, 0 <= cnt <= 255 ->
  exists k : nat,
    rle_scan (byte.unsigned b) data cnt
      = (skipn k data, cnt + Z.of_nat k)
    /\ firstn k data = repeat b k
    /\ (k <= length data)%nat
    /\ cnt + Z.of_nat k <= 255
    /\ (cnt + Z.of_nat k < 255 -> hd_error (skipn k data) <> Some b).
Proof.
  induction data as [|d data IH]; intros cnt Hc; simpl.
  - exists 0%nat. simpl. rewrite Z.add_0_r. repeat split; try lia. discriminate.
  - destruct (byte.unsigned b =? byte.unsigned d) eqn:E; simpl.
    + apply unsigned_eqb_iff in E. subst d.
      destruct (cnt <? 255) eqn:L.
      * apply Z.ltb_lt in L.
        destruct (IH (cnt + 1)) as (k & Hs & Hf & Hl & Hb & Hh); [lia|].
        exists (S k). simpl. rewrite Hs, Hf.
        replace (cnt + 1 + Z.of_nat k) with (cnt + Z.pos (Pos.of_succ_nat k)) in * by lia.
        repeat split; auto; lia.
      * apply Z.ltb_ge in L. exists 0%nat. simpl. rewrite Z.add_0_r.
        repeat split; try lia.
    + exists 0%nat. simpl. rewrite Z.add_0_r.
      repeat split; try lia.
      intros _ [=->]. rewrite Z.eqb_refl in E. discriminate.
Qed.

Lemma rle_scan_length lastCh :
  forall data cnt, (length (fst (rle_scan lastCh data cnt)) <= length data)%nat.
Proof.
  induction data as [|d data IH]; intros cnt; simpl; [lia|].
  destruct ((lastCh =? byte.unsigned d) && (cnt <? 255)); simpl; [|lia].
  specialize (IH (cnt + 1)). lia.
Qed.

(** ** The encoder as a stream of pushed bytes *)

Lemma encode_loop_stream {St} (cb : byte -> St -> St) :
  forall fuel lastCh data s,
    rle_encode_loop cb fuel lastCh data s
    = fold_left (fun s ch => cb ch s) (rle_stream fuel lastCh data) s.
Proof.
  induction fuel as [|fuel IH]; intros lastCh data s; simpl; [reflexivity|].
  destruct data as [|ch data1]; [reflexivity|].
  destruct (byte.unsigned ch =? lastCh).
  - destruct (rle_scan lastCh data1 0) as [data2 cnt]. simpl. apply IH.
  - simpl. apply IH.
Qed.

Lemma rle_encode_stream {St} (cb : byte -> St -> St) data s :
  rle_encode cb data s = fold_left (fun s ch => cb ch s) (enc (-1) data) s.
Proof. apply encode_loop_stream. Qed.

Lemma fold_push_byte l : forall acc,
  fold_left (fun s ch => push_byte ch s) l acc = acc ++ l.
Proof.
  induction l as [|x l IH]; intros acc; simpl.
  - now rewrite app_nil_r.
  - rewrite IH. unfold push_byte. now rewrite <- app_assoc.
Qed.

Lemma fold_count_call l : forall n,
  fold_left (fun s ch => count_call ch s) l n = (n + length l)%nat.
Proof.
  induction l as [|x l IH]; intros n; simpl; [lia|].
  rewrite IH. unfold count_call. lia.
Qed.

Lemma encode_bytes_enc data : encode_bytes data = enc (-1) data.
Proof.
  unfold encode_bytes. rewrite rle_encode_stream. apply fold_push_byte.
Qed.

Lemma rle_stream_fuel2 :
  forall fuel1 fuel2 lastCh data,
    (length data <= fuel1)%nat -> (length data <= fuel2)%nat ->
    rle_stream fuel1 lastCh data = rle_stream fuel2 lastCh data.
Proof.
  induction fuel1 as [|fuel1 IH]; intros fuel2 lastCh data H1 H2.
  - destruct data; [now destruct fuel2 | simpl in H1; lia].
  - destruct data as [|ch data1]; [now destruct fuel2|].
    destruct fuel2 as [|fuel2]; simpl in H1, H2; [lia|]. simpl.
    destruct (byte.unsigned ch =? lastCh).
    + pose proof (rle_scan_length lastCh data1 0) as Hs.
      destruct (rle_scan lastCh data1 0) as [data2 cnt]. simpl in Hs.
      rewrite (IH fuel2) by lia. reflexivity.
    + rewrite (IH fuel2) by lia. reflexivity.
Qed.

Lemma rle_stream_fuel fuel lastCh data :
  (length data <= fuel)%nat -> rle_stream fuel lastCh data = enc lastCh data.
Proof. intros. apply rle_stream_fuel2; auto. Qed.

Lemma enc_nil lastCh : enc lastCh [] = [].
Proof. reflexivity. Qed.

Lemma enc_cons lastCh ch data1 :
  enc lastCh (ch :: data1)
  = if byte.unsigned ch =? lastCh then
      ch :: byte.of_Z (snd (rle_scan lastCh data1 0))
         :: enc (byte.unsigned ch) (fst (rle_scan lastCh data1 0))
    else ch :: enc (byte.unsigned ch) data1.
Proof.
  unfold enc at 1. simpl.
  destruct (byte.unsigned ch =? lastCh); [|reflexivity].
  pose proof (rle_scan_length lastCh data1 0) as Hs.
  destruct (rle_scan lastCh data1 0) as [data2 cnt]. simpl in *.
  now rewrite rle_stream_fuel.
Qed.

(** The two cases of [enc_cons], with the scan resolved. *)
Lemma enc_fresh lastCh ch data1 :
  byte.unsigned ch <> lastCh ->
  enc lastCh (ch :: data1) = ch :: enc (byte.unsigned ch) data1.
Proof.
  intros H. rewrite enc_cons. apply Z.eqb_neq in H. now rewrite H.
Qed.

Lemma enc_repeat ch data1 :
  exists k : nat,
    enc (byte.unsigned ch) (ch :: data1)
    = ch :: byte.of_Z (Z.of_nat k) :: enc (byte.unsigned ch) (skipn k data1)
    /\ firstn k data1 = repeat ch k
    /\ (k <= length data1)%nat
    /\ (k <= 255)%nat
    /\ ((k < 255)%nat -> hd_error (skipn k data1) <> Some ch).
Proof.
  destruct (rle_scan_spec ch data1 0) as (k & Hs & Hf & Hl & Hb & Hh); [lia|].
  exists k. rewrite enc_cons, Z.eqb_refl, Hs. simpl.
  repeat split; auto; try lia. intros; apply Hh; lia.
Qed.

(** ** Size of the encoding *)

Lemma enc_length_bound :
  forall n data lastCh, (length data <= n)%nat ->
    (2 * length (enc lastCh data) <= 3 * length data + 1)%nat
    /\ ((forall c, hd_error data = Some c -> byte.unsigned c <> lastCh) ->
        (2 * length (enc lastCh data) <= 3 * length data)%nat).
Proof.
  induction n as [|n IH]; intros data lastCh Hn.
  - destruct data; [|simpl in Hn; lia]. rewrite enc_nil. simpl. lia.
  - destruct data as [|ch data1]; [rewrite enc_nil; simpl; lia|].
    simpl in Hn.
    destruct (Z.eq_dec (byte.unsigned ch) lastCh) as [<-|Hne].
    + destruct (enc_repeat ch data1) as (k & -> & _ & Hl & Hk & Hh).
      pose proof (length_skipn k data1) as Hsk.
      destruct (IH (skipn k data1) (byte.unsigned ch)) as [Hw Hs]; [lia|].
      split.
      * destruct (Nat.eq_dec k 255) as [->|Hk'].
        -- simpl length in *. lia.
        -- assert (Hs' : (2 * length (enc (byte.unsigned ch) (skipn k data1))
                          <= 3 * length (skipn k data1))%nat).
           { apply Hs. intros c Hc Heq. apply byte.unsigned_inj in Heq. subst c.
             apply Hh; [lia | assumption]. }
           simpl length in *. lia.
      * intros Hfresh. exfalso. now apply (Hfresh ch).
    + rewrite enc_fresh by assumption.
      destruct (IH data1 (byte.unsigned ch)) as [Hw _]; [lia|].
      simpl length. lia.
Qed.

(** ** Decoding what the encoder pushed *)

Lemma rle_decode_loop_step (fuel : nat) (lastCh : Z) (s : list byte) (d : dest) :
  rle_decode_loop pull_byte (S fuel) lastCh s d
  = let '(ch, s1) := pull_byte s in
    if ch <? 0 then Some (s1, d)
    else if ch =? lastCh then
           let '(cnt, s2) := pull_byte s1 in
           rle_decode_loop pull_byte fuel ch s2
             (store_run (Z.to_nat cnt) (store d (byte.of_Z ch)) (byte.of_Z ch))
         else rle_decode_loop pull_byte fuel ch s1 (store d (byte.of_Z ch)).
Proof. reflexivity. Qed.

Lemma store_run_fold n : forall d b,
  store_run n d b = fold_left store (repeat b n) d.
Proof. induction n as [|n IH]; intros d b; simpl; [reflexivity | apply IH]. Qed.

Lemma fold_store l : forall d,
  fold_left store l d
  = {| d_ptr := d_ptr d + Z.of_nat (length l);
       d_stores := d_stores d ++ bytes_at (d_ptr d) l |}.
Proof.
  induction l as [|b l IH]; intros d.
  - simpl. rewrite Z.add_0_r, app_nil_r. now destruct d.
  - cbn [fold_left]. rewrite IH. unfold store. cbn [d_ptr d_stores length bytes_at].
    rewrite <- app_assoc. f_equal. lia.
Qed.

(** Write the fuel of the decoding loop in the goal as the length of the
    stream still to pull, plus one, plus [k]. *)
Ltac refuel k :=
  match goal with
  | |- rle_decode_loop _ ?f _ ?s _ = _ =>
      replace f with (S (length s) + k)%nat by (cbn [length]; lia)
  end.

Lemma decode_enc :
  forall n data lastE lastD d k, (length data <= n)%nat ->
    lastE = lastD \/ (lastE < 0 /\ lastD < 0) ->
    rle_decode_loop pull_byte (S (length (enc lastE data)) + k) lastD
                    (enc lastE data) d
    = Some ([], fold_left store data d).
Proof.
  induction n as [|n IH]; intros data lastE lastD d k Hn Hlast.
  - destruct data; [|simpl in Hn; lia]. reflexivity.
  - destruct data as [|ch data1]; [reflexivity|].
    simpl in Hn. pose proof (byte.unsigned_range ch) as Hr.
    destruct (Z.eq_dec (byte.unsigned ch) lastE) as [<-|Hne].
    + assert (lastD = byte.unsigned ch) by lia. subst lastD.
      destruct (enc_repeat ch data1) as (j & -> & Hf & Hl & Hj & _).
      cbn [length Nat.add]. rewrite rle_decode_loop_step. cbn [pull_byte].
      replace (byte.unsigned ch <? 0) with false by (symmetry; apply Z.ltb_ge; lia).
      rewrite Z.eqb_refl, byte.of_Z_unsigned, of_Z_small, Nat2Z.id by lia.
      pose proof (length_skipn j data1).
      refuel (S k). rewrite IH by (auto; lia).
      rewrite store_run_fold. f_equal. f_equal.
      rewrite <- (firstn_skipn j data1) at 2. rewrite Hf.
      cbn [fold_left]. now rewrite fold_left_app.
    + rewrite enc_fresh by assumption.
      cbn [length Nat.add]. rewrite rle_decode_loop_step. cbn [pull_byte].
      replace (byte.unsigned ch <? 0) with false by (symmetry; apply Z.ltb_ge; lia).
      replace (byte.unsigned ch =? lastD) with false
        by (symmetry; apply Z.eqb_neq; lia).
      rewrite byte.of_Z_unsigned.
      refuel k. rewrite IH by (auto; lia). reflexivity.
Qed.

(** C1. For every byte sequence [S], the stream [rle_encode] pushes for [S],
    pulled back by [rle_decode] one byte at a time and then a negative
    end-of-stream value, makes [rle_decode] return (whenever it is given
    at least one iteration more than the stream has bytes) after storing
    exactly the bytes of [S], in order, from the destination pointer on. *)
Theorem rle_round_trip (data : list byte) (p : Z) (k : nat) :
  rle_decode pull_byte (S (length (encode_bytes data)) + k)
             (encode_bytes data) p
  = Some ([], {| d_ptr := p + Z.of_nat (length data);
                 d_stores := bytes_at p data |}).
Proof.
  unfold rle_decode. rewrite encode_bytes_enc.
  rewrite (decode_enc (length data)) by (auto; lia).
  now rewrite fold_store.
Qed.

(** C10. For every input of [n] bytes, [rle_encode] invokes its push
    callback at most [n + n/2] times (so it pushes at most that many
    bytes). *)
Theorem rle_encode_calls_bound (data : list byte) :
  (rle_encode count_call data 0 <= length data + length data / 2)%nat
  /\ (length (encode_bytes data) <= length data + length data / 2)%nat.
Proof.
  rewrite rle_encode_stream, fold_count_call, encode_bytes_enc.
  destruct (enc_length_bound (length data) data (-1)) as [_ H]; [lia|].
  assert (Hb : (2 * length (enc (-1) data) <= 3 * length data)%nat).
  { apply H. intros c _. pose proof (byte.unsigned_range c). lia. }
  pose proof (Nat.div_mod_eq (length data) 2) as Hd.
  pose proof (Nat.mod_upper_bound (length data) 2).
  generalize dependent (length (enc (-1) data)).
  generalize dependent (length data / 2)%nat.
  generalize dependent (length data mod 2)%nat.
  intros. lia.
Qed.

(** ** The example of the specification *)

(** C6 (as the code has it). [rle_encode] applied to the six bytes
    [0x41,0x41,0x41,0x41,0x41,0x42] pushes exactly the four bytes
    [0x41,0x41,0x03,0x42]: the byte [0x42] differs from the byte before
    it, so no count byte follows it. *)
Theorem rle_encode_example :
  encode_bytes example_heap = map byte.of_Z [0x41; 0x41; 0x03; 0x42].
Proof. vm_compute. reflexivity. Qed.

(** C6 as stated fails: the output is not [0x41,0x41,0x03,0x42,0x00]. *)
Lemma rle_encode_example_no_trailing_zero :
  encode_bytes example_heap <> map byte.of_Z [0x41; 0x41; 0x03; 0x42; 0x00].
Proof. vm_compute. discriminate. Qed.

(** ** Runs *)

Lemma enc_non_repeating :
  forall pre lastCh rest, non_repeating lastCh pre = true ->
    enc lastCh (pre ++ rest) = pre ++ enc (last_ch lastCh pre) rest.
Proof.
  induction pre as [|c pre IH]; intros lastCh rest H; [reflexivity|].
  simpl in H. apply andb_prop in H as [Hc Hp].
  apply negb_true_iff, Z.eqb_neq in Hc.
  cbn [app]. rewrite enc_fresh by assumption.
  rewrite IH by assumption. reflexivity.
Qed.

Lemma rle_scan_repeat (b : byte) (post : list byte) :
  hd_error post <> Some b ->
  forall m cnt, 0 <= cnt <= 255 ->
    rle_scan (byte.unsigned b) (repeat b m ++ post) cnt
    = (repeat b (m - Nat.min m (Z.to_nat (255 - cnt))) ++ post,
       cnt + Z.of_nat (Nat.min m (Z.to_nat (255 - cnt)))).
Proof.
  intros Hpost. induction m as [|m IH]; intros cnt Hc.
  - cbn [repeat app Nat.min Nat.sub]. rewrite Z.add_0_r.
    destruct post as [|d post]; [reflexivity|]. simpl.
    destruct (byte.unsigned b =? byte.unsigned d) eqn:E; [|reflexivity].
    apply unsigned_eqb_iff in E. subst d. now contradiction Hpost.
  - cbn [repeat app rle_scan]. rewrite Z.eqb_refl. cbn [andb].
    destruct (cnt <? 255) eqn:L.
    + apply Z.ltb_lt in L. rewrite IH by lia.
      replace (Z.to_nat (255 - cnt)) with (S (Z.to_nat (255 - (cnt + 1)))) by lia.
      cbn [Nat.min Nat.sub]. f_equal. lia.
    + apply Z.ltb_ge in L.
      replace (Z.to_nat (255 - cnt)) with 0%nat by lia.
      rewrite Nat.min_0_r, Nat.sub_0_r, Z.add_0_r. reflexivity.
Qed.

Lemma ceil256_step (m : Z) :
  0 <= m ->
  (m + 1 + 255) / 256 = 1 + (m - Z.min m 255 + 255) / 256.
Proof.
  intros Hm. destruct (Z.le_gt_cases m 255) as [Hle|Hgt].
  - rewrite Z.min_l by lia. Z.div_mod_to_equations. lia.
  - rewrite Z.min_r by lia. Z.div_mod_to_equations. lia.
Qed.

Lemma enc_run_length (b : byte) (post : list byte) :
  hd_error post <> Some b ->
  forall n m, (m <= n)%nat ->
    Z.of_nat (length (enc (byte.unsigned b) (repeat b m ++ post)))
    = 2 * ((Z.of_nat m + 255) / 256)
      + Z.of_nat (length (enc (byte.unsigned b) post)).
Proof.
  intros Hpost. induction n as [|n IH]; intros m Hm.
  - replace m with 0%nat by lia. reflexivity.
  - destruct m as [|m]; [reflexivity|].
    cbn [repeat app]. rewrite enc_cons, Z.eqb_refl.
    rewrite rle_scan_repeat by (auto; lia). cbn [fst snd length].
    rewrite !Nat2Z.inj_succ, IH by lia.
    replace (Z.to_nat (255 - 0)) with 255%nat by reflexivity.
    rewrite Nat2Z.inj_sub by lia. rewrite Nat2Z.inj_min.
    change (Z.of_nat 255) with 255.
    replace (Z.succ (Z.of_nat m) + 255) with (Z.of_nat m + 1 + 255) by lia.
    rewrite (ceil256_step (Z.of_nat m)) by lia. lia.
Qed.

Lemma non_repeating_hd lastCh post (b : byte) :
  non_repeating lastCh post = true -> lastCh = byte.unsigned b ->
  hd_error post <> Some b.
Proof.
  intros H -> . destruct post as [|c post]; [discriminate|].
  simpl in H. apply andb_prop in H as [Hc _].
  apply negb_true_iff, Z.eqb_neq in Hc. intros [= ->]. now apply Hc.
Qed.

(** C2 (as the code has it). A run of [n >= 2] equal bytes between
    non-repeating data accounts for exactly [1 + 2 * ceil((n-1)/256)]
    output bytes: the first byte of the run, and for every 256 further
    bytes (or part of them) one literal and one count byte. *)
Theorem run_encoding_cost (pre post : list byte) (b : byte) (n : nat) :
  non_repeating (-1) pre = true ->
  last_ch (-1) pre <> byte.unsigned b ->
  non_repeating (byte.unsigned b) post = true ->
  (2 <= n)%nat ->
  run_output_bytes pre b n post = run_cost (Z.of_nat n).
Proof.
  intros Hpre Hlast Hpost Hn.
  unfold run_output_bytes, run_cost. rewrite encode_bytes_enc.
  rewrite enc_non_repeating by assumption.
  destruct n as [|m]; [lia|]. cbn [repeat app].
  rewrite enc_fresh by congruence.
  rewrite length_app. cbn [length].
  rewrite Nat2Z.inj_add, !Nat2Z.inj_succ.
  rewrite (enc_run_length b post (non_repeating_hd _ _ _ Hpost eq_refl) m m)
    by lia.
  rewrite <- (app_nil_r post) at 1.
  rewrite enc_non_repeating, enc_nil, app_nil_r by assumption.
  replace (Z.succ (Z.of_nat m) - 1 + 255) with (Z.of_nat m + 255) by lia.
  lia.
Qed.

(** A run of 300 bytes [0x41] between the bytes [0x01] and [0x02]. *)
Lemma run_encoding_cost_witness :
  run_output_bytes [byte.of_Z 1] (byte.of_Z 0x41) 300 [byte.of_Z 2]
  = run_cost 300.
Proof.
  apply (run_encoding_cost [byte.of_Z 1] [byte.of_Z 2] (byte.of_Z 0x41) 300).
  - reflexivity.
  - vm_compute. discriminate.
  - reflexivity.
  - lia.
Defined.

(** C2 as stated fails: a run of two bytes [0x41] between [0x01] and
    [0x02] accounts for three output bytes ([0x41,0x41,0x00]), not for
    [2 + ceil(0/255) = 2]; and a run of 258 accounts for five, not for
    [2 + ceil(256/255) = 4]. *)
Lemma run_of_two_costs_three :
  non_repeating (-1) [byte.of_Z 1] = true
  /\ non_repeating (byte.unsigned (byte.of_Z 0x41)) [byte.of_Z 2] = true
  /\ encode_bytes ([byte.of_Z 1] ++ repeat (byte.of_Z 0x41) 2 ++ [byte.of_Z 2])
     = map byte.of_Z [1; 0x41; 0x41; 0; 2]
  /\ run_output_bytes [byte.of_Z 1] (byte.of_Z 0x41) 2 [byte.of_Z 2] = 3
  /\ run_output_bytes [byte.of_Z 1] (byte.of_Z 0x41) 2 [byte.of_Z 2]
     <> spec_run_cost 2
  /\ run_output_bytes [byte.of_Z 1] (byte.of_Z 0x41) 258 [byte.of_Z 2] = 5
  /\ spec_run_cost 258 = 4.
Proof. vm_compute. repeat split; discriminate. Qed.

(** * Further properties of the codec *)

(** ** Decoding an arbitrary stream *)

Lemma decode_any :
  forall n s, (length s <= n)%nat ->
  forall lastCh d k,
  exists out,
    rle_decode_loop pull_byte (S (length s) + k) lastCh s d
    = Some ([], fold_left store out d)
    /\ (length out <= 128 * length s)%nat.
Proof.
  induction n as [|n IH]; intros s Hn lastCh d k.
  - destruct s; [|simpl in Hn; lia]. exists []. split; [reflexivity | simpl; lia].
  - destruct s as [|b s1]; [exists []; split; [reflexivity | simpl; lia]|].
    simpl in Hn. pose proof (byte.unsigned_range b) as Hb.
    cbn [length Nat.add]. rewrite rle_decode_loop_step. cbn [pull_byte].
    replace (byte.unsigned b <? 0) with false by (symmetry; apply Z.ltb_ge; lia).
    rewrite byte.of_Z_unsigned.
    destruct (byte.unsigned b =? lastCh).
    + destruct s1 as [|c s2]; cbn [pull_byte].
      * change (Z.to_nat (-1)) with 0%nat. cbn [store_run].
        destruct (IH [] ltac:(simpl; lia) (byte.unsigned b) (store d b) k)
          as (out & Hd & Hl).
        exists (b :: out). cbn [length Nat.add] in Hd. cbn [length fold_left].
        split; [exact Hd | simpl in Hl; lia].
      * simpl in Hn. pose proof (byte.unsigned_range c) as Hc.
        change (2 ^ 8) with 256 in Hc.
        destruct (IH s2 ltac:(lia) (byte.unsigned b)
                     (store_run (Z.to_nat (byte.unsigned c)) (store d b) b) (S k))
          as (out & Hd & Hl).
        exists (b :: repeat b (Z.to_nat (byte.unsigned c)) ++ out).
        split.
        -- refuel (S k). rewrite Hd. f_equal. f_equal.
           cbn [fold_left]. rewrite fold_left_app, store_run_fold. reflexivity.
        -- cbn [length]. rewrite length_app, repeat_length. lia.
    + destruct (IH s1 ltac:(lia) (byte.unsigned b) (store d b) k)
        as (out & Hd & Hl).
      exists (b :: out). split.
      * refuel k. exact Hd.
      * cbn [length]. lia.
Qed.

(** X1 (decoder). Pulled from any finite stream of bytes, [rle_decode]
    returns (given one iteration more than the stream has bytes), its
    stores go to consecutive addresses from the destination pointer, and
    there are at most 128 of them for every byte of the stream. *)
Theorem rle_decode_any_stream (s : list byte) (p : Z) (k : nat) :
  exists out,
    rle_decode pull_byte (S (length s) + k) s p
    = Some ([], {| d_ptr := p + Z.of_nat (length out);
                   d_stores := bytes_at p out |})
    /\ (length out <= 128 * length s)%nat.
Proof.
  destruct (decode_any (length s) s (le_n _) (-256)
                       {| d_ptr := p; d_stores := [] |} k) as (out & Hd & Hl).
  exists out. split; [|exact Hl].
  unfold rle_decode. rewrite Hd, fold_store. reflexivity.
Qed.

Lemma bytes_at_inj (a b : list byte) :
  forall p, bytes_at p a = bytes_at p b -> a = b.
Proof.
  revert b. induction a as [|x a IH]; intros [|y b] p H;
    try discriminate; [reflexivity|].
  cbn [bytes_at] in H. injection H as -> H. f_equal. eauto.
Qed.

(** X2 (encoder). [rle_encode] loses nothing: two inputs for which it
    pushes the same bytes are the same input. *)
Theorem rle_encode_injective (a b : list byte) :
  encode_bytes a = encode_bytes b -> a = b.
Proof.
  rewrite !encode_bytes_enc. intros H.
  pose proof (decode_enc (length a) a (-1) (-1)
                {| d_ptr := 0; d_stores := [] |} 0 (le_n _) (or_introl eq_refl))
    as Ha.
  pose proof (decode_enc (length b) b (-1) (-1)
                {| d_ptr := 0; d_stores := [] |} 0 (le_n _) (or_introl eq_refl))
    as Hb.
  rewrite H, Hb in Ha. injection Ha as Ha.
  rewrite !fold_store in Ha. cbn [d_stores d_ptr app] in Ha.
  injection Ha as _ Ha. symmetry. eapply bytes_at_inj. exact Ha.
Qed.

(** X3 (encoder). [rle_encode] shrinks its input at most 128 times: an
    input of [n] bytes gives at least [n / 128] bytes. *)
Theorem rle_encode_shrinks_at_most_128 (data : list byte) :
  (length data <= 128 * length (encode_bytes data))%nat.
Proof.
  rewrite encode_bytes_enc.
  pose proof (decode_enc (length data) data (-1) (-1)
                {| d_ptr := 0; d_stores := [] |} 0 (le_n _) (or_introl eq_refl))
    as Hd.
  destruct (decode_any (length (enc (-1) data)) (enc (-1) data) (le_n _) (-1)
                       {| d_ptr := 0; d_stores := [] |} 0) as (out & Ho & Hl).
  rewrite Hd in Ho. injection Ho as Ho.
  rewrite !fold_store in Ho. cbn [d_ptr] in Ho. injection Ho as Hp _. lia.
Qed.

(** X4 (encoder). Data in which no byte equals the one before it is pushed
    as it is: no count byte, no expansion. *)
Theorem rle_encode_non_repeating (data : list byte) :
  non_repeating (-1) data = true -> encode_bytes data = data.
Proof.
  intros H. rewrite encode_bytes_enc.
  rewrite <- (app_nil_r data) at 1.
  rewrite enc_non_repeating by assumption.
  now rewrite enc_nil, app_nil_r.
Qed.

Lemma rle_encode_non_repeating_witness :
  encode_bytes (map byte.of_Z [1; 2; 3; 2; 1]) = map byte.of_Z [1; 2; 3; 2; 1].
Proof. apply rle_encode_non_repeating. reflexivity. Defined.

Lemma enc_paired :
  forall l lastCh, non_repeating lastCh l = true ->
    length (enc lastCh (paired l)) = (3 * length l)%nat.
Proof.
  induction l as [|x l IH]; intros lastCh H; [reflexivity|].
  simpl in H. apply andb_prop in H as [Hx Hl].
  apply negb_true_iff, Z.eqb_neq in Hx.
  cbn [paired]. rewrite enc_fresh by assumption.
  rewrite enc_cons, Z.eqb_refl.
  assert (Hhd : hd_error (paired l) <> Some x).
  { destruct l as [|y l]; [discriminate|]. simpl in Hl.
    apply andb_prop in Hl as [Hy _]. apply negb_true_iff, Z.eqb_neq in Hy.
    cbn [paired hd_error]. intros [= ->]. now apply Hy. }
  pose proof (rle_scan_repeat x (paired l) Hhd 0 0 ltac:(lia)) as Hs.
  cbn [repeat app Nat.min Nat.sub] in Hs. rewrite Hs. cbn [fst snd length].
  rewrite IH by assumption. lia.
Qed.

(** X5 (encoder). The bound of one and a half is attained: data without
    equal neighbours, with every byte doubled, gives three output bytes
    for every two input bytes. *)
Theorem rle_encode_worst_case (l : list byte) :
  non_repeating (-1) l = true ->
  length (paired l) = (2 * length l)%nat
  /\ length (encode_bytes (paired l)) = (3 * length l)%nat.
Proof.
  intros H. split.
  - clear H. induction l as [|x l IH]; [reflexivity|].
    cbn [paired length]. rewrite IH. lia.
  - rewrite encode_bytes_enc. now apply enc_paired.
Qed.

Lemma rle_encode_worst_case_witness :
  length (paired (map byte.of_Z [1; 2; 3])) = 6%nat
  /\ length (encode_bytes (paired (map byte.of_Z [1; 2; 3]))) = 9%nat.
Proof. apply (rle_encode_worst_case (map byte.of_Z [1; 2; 3])). reflexivity. Defined.

(** * Properties of the flash save and load paths *)

Import Flash.

(** ** Bit masks on addresses *)

Lemma land_3 a : Z.land a 3 = a mod 4.
Proof. change 3 with (Z.ones 2). rewrite Z.land_ones by lia. reflexivity. Qed.

Lemma land_word_mask a :
  0 <= a < 2 ^ 32 -> Z.land a (u32 (Z.lnot 3)) = a - a mod 4.
Proof.
  intros Ha.
  assert (E : Z.land a (u32 (Z.lnot 3)) = Z.ldiff a (Z.ones 2)).
  { apply Z.bits_inj'. intros n Hn.
    rewrite Z.land_spec, Z.ldiff_spec.
    destruct (Z.lt_ge_cases n 32) as [Hlt|Hge].
    - unfold u32. rewrite Z.mod_pow2_bits_low by lia.
      rewrite Z.lnot_spec by lia. reflexivity.
    - rewrite <- (Z.mod_small a (2 ^ 32)) by lia.
      rewrite Z.mod_pow2_bits_high by lia. reflexivity. }
  rewrite E, Z.ldiff_ones_r by lia.
  rewrite Z.shiftr_div_pow2, Z.shiftl_mul_pow2 by lia.
  change (2 ^ 2) with 4. pose proof (Z.div_mod a 4). lia.
Qed.

Section FlashProps.
Context {P : Platform}.

(** ** Traces *)

Lemma writes_within_app lo hi e1 e2 :
  writes_within lo hi e1 -> writes_within lo hi e2 ->
  writes_within lo hi (e1 ++ e2).
Proof. intros. apply Forall_app. now split. Qed.

Lemma writes_within_weaken lo hi lo' hi' evs :
  writes_within lo hi evs -> lo' <= lo -> hi <= hi' ->
  writes_within lo' hi' evs.
Proof.
  intros H Hlo Hhi. eapply Forall_impl; [|exact H].
  intros e He x Hx. specialize (He x Hx). lia.
Qed.

Lemma no_writes_within lo hi evs :
  flash_writes evs = [] -> writes_within lo hi evs.
Proof.
  unfold flash_writes, writes_within. induction evs as [|e evs IH]; intros H.
  - constructor.
  - simpl in H. destruct e; simpl in H; try discriminate;
      (constructor; [intros x []| now apply IH]).
Qed.

Lemma flash_writes_app e1 e2 :
  flash_writes (e1 ++ e2) = flash_writes e1 ++ flash_writes e2.
Proof. apply filter_app. Qed.

(** ** One call of the write callback *)

Lemma writecb_step (ch : byte) (cb : cbdata) (w : world) :
  exists evs,
    jsfSaveToFlash_writecb ch (cb, w)
    = ({| cb0 := cb0 cb;
          cb1 := u32 (cb1 cb + 1);
          cb2 := if cb1 cb <? cb0 cb
                 then Z.lor (u32 (Z.shiftl (byte.unsigned ch) 24))
                            (Z.shiftr (cb2 cb) 8)
                 else cb2 cb |},
       {| w_flash := w_flash (snd (jsfSaveToFlash_writecb ch (cb, w)));
          w_trace := w_trace w ++ evs |})
    /\ flash_writes evs
       = if (cb1 cb <? cb0 cb) && (Z.land (cb1 cb) 3 =? 3)
         then [EvWrite (Z.land (cb1 cb) (u32 (Z.lnot 3)))
                       (le_bytes (Z.lor (u32 (Z.shiftl (byte.unsigned ch) 24))
                                        (Z.shiftr (cb2 cb) 8)))]
         else [].
Proof.
  unfold jsfSaveToFlash_writecb.
  destruct (cb1 cb <? cb0 cb); cbn [andb cb0 cb1 cb2];
    [destruct (Z.land (cb1 cb) 3 =? 3); cbn [cb0 cb1 cb2]|];
    (destruct (Z.land (u32 (cb1 cb + 1)) 1023 =? 0);
     unfold jsiConsolePrint, flash_write; cbn [snd w_flash w_trace]).
  - rewrite <- app_assoc. eexists. split; reflexivity.
  - eexists. split; reflexivity.
  - eexists. split; reflexivity.
  - exists []. rewrite app_nil_r. destruct w; split; reflexivity.
  - eexists. split; [destruct cb; reflexivity | reflexivity].
  - exists []. rewrite app_nil_r. destruct w, cb; split; reflexivity.
Qed.

Lemma writes_within_filter lo hi evs :
  writes_within lo hi (flash_writes evs) -> writes_within lo hi evs.
Proof.
  unfold flash_writes, writes_within. induction evs as [|e evs IH]; intros H.
  - constructor.
  - destruct e; simpl in H.
    + constructor; [intros x [] | auto].
    + inversion H; subst. constructor; auto.
    + constructor; [intros x [] | auto].
Qed.

Lemma writecb_step_within (ch : byte) (cb : cbdata) (w : world) :
  0 <= cb1 cb < 2 ^ 32 ->
  exists evs,
    w_trace (snd (jsfSaveToFlash_writecb ch (cb, w))) = w_trace w ++ evs
    /\ writes_within (4 * (cb1 cb / 4)) (cb0 cb) evs
    /\ (cb0 cb <= cb1 cb -> flash_writes evs = []).
Proof.
  intros Hr. destruct (writecb_step ch cb w) as (evs & -> & Hw).
  exists evs. cbn [snd w_trace]. split; [reflexivity|]. split.
  - apply writes_within_filter. rewrite Hw.
    destruct (cb1 cb <? cb0 cb) eqn:E1; [|constructor].
    destruct (Z.land (cb1 cb) 3 =? 3) eqn:E2; [|constructor].
    apply Z.ltb_lt in E1. apply Z.eqb_eq in E2. rewrite land_3 in E2.
    constructor; [|constructor]. intros x Hx.
    unfold touches, le_bytes in Hx. cbn [length] in Hx.
    rewrite land_word_mask in Hx by assumption.
    Z.div_mod_to_equations. lia.
  - intros Hge. rewrite Hw.
    replace (cb1 cb <? cb0 cb) with false by (symmetry; apply Z.ltb_ge; lia).
    reflexivity.
Qed.

(** ** A sequence of calls of the write callback *)

Lemma run_writecb_spec :
  forall bytes cb w, 0 <= cb1 cb < 2 ^ 32 ->
  exists cb' w' evs,
    run_writecb bytes (cb, w) = (cb', w')
    /\ cb0 cb' = cb0 cb
    /\ 0 <= cb1 cb' < 2 ^ 32
    /\ cb1 cb' = u32 (cb1 cb + Z.of_nat (length bytes))
    /\ w_trace w' = w_trace w ++ evs
    /\ writes_within 0 (cb0 cb) evs
    /\ (cb1 cb + Z.of_nat (length bytes) < 2 ^ 32 ->
        writes_within (4 * (cb1 cb / 4)) (cb0 cb) evs
        /\ (cb0 cb <= cb1 cb -> flash_writes evs = [])).
Proof.
  induction bytes as [|ch bytes IH]; intros cb w Hr.
  - exists cb, w, []. cbn [run_writecb fold_left length Z.of_nat].
    rewrite Z.add_0_r, app_nil_r, u32_small by assumption.
    repeat split; try lia; try constructor.
  - cbn [run_writecb fold_left].
    destruct (writecb_step_within ch cb w Hr) as (evs1 & Ht1 & Hw1 & Hn1).
    destruct (writecb_step ch cb w) as (evs0 & Hs & _).
    destruct (jsfSaveToFlash_writecb ch (cb, w)) as [cb1' w1'] eqn:E.
    assert (Hcb0 : cb0 cb1' = cb0 cb)
      by exact (f_equal (fun s => cb0 (fst s)) Hs).
    assert (Hcb1 : cb1 cb1' = u32 (cb1 cb + 1))
      by exact (f_equal (fun s => cb1 (fst s)) Hs).
    cbn [snd] in Ht1.
    destruct (IH cb1' w1') as (cb' & w' & evs2 & Hrun & H0 & Hrng & H1 & Ht & Hw & Hnw).
    { rewrite Hcb1. apply u32_range. }
    exists cb', w', (evs1 ++ evs2).
    fold (run_writecb bytes (cb1', w1')). rewrite Hrun.
    split; [reflexivity|]. split; [congruence|]. split; [assumption|].
    split.
    { rewrite H1, Hcb1. unfold u32. rewrite Zplus_mod_idemp_l.
      f_equal. cbn [length]. lia. }
    split; [rewrite Ht, Ht1; symmetry; apply app_assoc|].
    split.
    { apply writes_within_app.
      - eapply writes_within_weaken; [exact Hw1 | | lia].
        Z.div_mod_to_equations. lia.
      - rewrite <- Hcb0. exact Hw. }
    cbn [length]. rewrite Nat2Z.inj_succ. intros Hnowrap.
    assert (Hu : u32 (cb1 cb + 1) = cb1 cb + 1) by (apply u32_small; lia).
    destruct Hnw as [Hw2 Hn2]; [rewrite Hcb1, Hu; lia|].
    split.
    + apply writes_within_app.
      * exact Hw1.
      * rewrite Hcb0, Hcb1, Hu in Hw2.
        eapply writes_within_weaken; [exact Hw2 | | lia].
        Z.div_mod_to_equations. lia.
    + intros Hge. rewrite flash_writes_app, Hn1 by assumption.
      rewrite Hn2 by (rewrite Hcb0, Hcb1, Hu; lia). reflexivity.
Qed.

(** ** Erasing *)

Lemma erase_loop_total :
  page_ok ->
  forall fuel pageStart pageLength w,
    (Z.to_nat (FLASH_MAGIC_LOCATION - u32 (pageStart + pageLength)) <= fuel)%nat ->
    exists w' evs,
      erase_loop fuel pageStart pageLength w = Some w'
      /\ w_trace w' = w_trace w ++ evs
      /\ flash_writes evs = [].
Proof.
  intros Hpage. induction fuel as [|fuel IH]; intros ps pl w Hfuel.
  - cbn [erase_loop].
    destruct (u32 (ps + pl) <? FLASH_MAGIC_LOCATION) eqn:E.
    + apply Z.ltb_lt in E. lia.
    + exists w, []. now rewrite app_nil_r.
  - cbn [erase_loop].
    destruct (u32 (ps + pl) <? FLASH_MAGIC_LOCATION) eqn:E.
    + apply Z.ltb_lt in E.
      destruct (jshFlashGetPage (u32 (ps + pl))) as [[ps' pl']|] eqn:G.
      * destruct (Hpage _ _ _ G) as [Hin Hend].
        pose proof (u32_range (ps + pl)) as Hr.
        destruct (IH ps' pl' (flash_erase ps' (jsiConsolePrint MsgDot w)))
          as (w' & evs & -> & Ht & Hw).
        { rewrite (u32_small (ps' + pl')) by lia. lia. }
        exists w', (EvPrint MsgDot :: EvErase ps' :: evs).
        split; [reflexivity|]. split; [|exact Hw].
        rewrite Ht. unfold flash_erase, jsiConsolePrint. cbn [w_trace].
        now rewrite <- !app_assoc.
      * exists (jsiConsolePrint MsgDot w), [EvPrint MsgDot]. now split.
    + exists w, []. now rewrite app_nil_r.
Qed.

Lemma erase_saved_code_total (fuel : nat) (w : world) :
  page_ok -> (Z.to_nat FLASH_MAGIC_LOCATION <= fuel)%nat ->
  exists w' evs,
    erase_saved_code fuel w = Some w'
    /\ w_trace w' = w_trace w ++ evs
    /\ flash_writes evs = [].
Proof.
  intros Hpage Hfuel. unfold erase_saved_code.
  destruct (jshFlashGetPage FLASH_SAVED_CODE_START) as [[ps pl]|].
  - destruct (erase_loop_total Hpage fuel ps pl
                (flash_erase ps (jsiConsolePrint MsgErasing w)))
      as (w' & evs & -> & Ht & Hw).
    { pose proof (u32_range (ps + pl)). lia. }
    exists w', (EvPrint MsgErasing :: EvErase ps :: evs).
    split; [reflexivity|]. split; [|exact Hw].
    rewrite Ht. unfold flash_erase, jsiConsolePrint. cbn [w_trace].
    now rewrite <- !app_assoc.
  - exists (jsiConsolePrint MsgErasing w), [EvPrint MsgErasing]. now split.
Qed.

(** ** Writing *)

Lemma write_saved_code_spec (heap : list byte) (w : world) :
  0 <= FLASH_SAVED_CODE_START ->
  FLASH_SAVED_CODE_START mod 4 = 0 ->
  FLASH_SAVED_CODE_START + 4 + Z.of_nat (length (encode_bytes heap)) + 3 < 2 ^ 32 ->
  exists cb w' evs,
    write_saved_code heap w
    = (FLASH_SAVED_CODE_START + 4 + Z.of_nat (length (encode_bytes heap)),
       (cb, w'))
    /\ cb0 cb = FLASH_MAGIC_LOCATION
    /\ cb1 cb = FLASH_SAVED_CODE_START + 4
                + Z.of_nat (length (encode_bytes heap)) + 3
    /\ w_trace w' = w_trace w ++ evs
    /\ writes_within (FLASH_SAVED_CODE_START + 4) FLASH_MAGIC_LOCATION evs.
Proof.
  intros H0 Hal Hnw. unfold write_saved_code.
  set (n := Z.of_nat (length (encode_bytes heap))) in *.
  assert (Hn : 0 <= n) by (unfold n; lia).
  assert (Hstart : rleStart = FLASH_SAVED_CODE_START + 4)
    by (unfold rleStart; apply u32_small; lia).
  set (cb := {| cb0 := FLASH_MAGIC_LOCATION; cb1 := rleStart; cb2 := 0 |}).
  set (w0 := jsiConsolePrint MsgWriting w).
  rewrite rle_encode_stream, <- encode_bytes_enc.
  change (fold_left (fun s ch => jsfSaveToFlash_writecb ch s)
                    (encode_bytes heap) (cb, w0))
    with (run_writecb (encode_bytes heap) (cb, w0)).
  destruct (run_writecb_spec (encode_bytes heap) cb w0)
    as (cbA & wA & evsA & HrA & H0A & HrngA & H1A & HtA & _ & HwA).
  { cbn [cb cb1]. rewrite Hstart. lia. }
  fold n in H1A, HwA.
  cbn [cb cb0 cb1] in *. rewrite Hstart in *.
  rewrite u32_small in H1A by lia.
  destruct HwA as [HwA _]; [lia|].
  rewrite HrA. cbn [fst].
  change (jsfSaveToFlash_writecb (byte.of_Z 0)
            (jsfSaveToFlash_writecb (byte.of_Z 0)
               (jsfSaveToFlash_writecb (byte.of_Z 0) (cbA, wA))))
    with (run_writecb [byte.of_Z 0; byte.of_Z 0; byte.of_Z 0] (cbA, wA)).
  destruct (run_writecb_spec [byte.of_Z 0; byte.of_Z 0; byte.of_Z 0] cbA wA)
    as (cbB & wB & evsB & HrB & H0B & HrngB & H1B & HtB & _ & HwB);
    [assumption|].
  cbn [length] in H1B, HwB. rewrite H1A in H1B, HwB.
  rewrite u32_small in H1B by lia.
  destruct HwB as [HwB _]; [lia|].
  exists cbB, wB, (EvPrint MsgWriting :: evsA ++ evsB).
  rewrite HrB, H1A. split; [reflexivity|].
  split; [congruence|]. split; [lia|]. split.
  - rewrite HtB, HtA. unfold w0, jsiConsolePrint. cbn [w_trace].
    now rewrite <- !app_assoc.
  - constructor; [intros x []|].
    apply writes_within_app.
    + eapply writes_within_weaken; [exact HwA | | lia].
      Z.div_mod_to_equations. lia.
    + rewrite H0A in HwB.
      eapply writes_within_weaken; [exact HwB | | lia].
      Z.div_mod_to_equations. lia.
Qed.

(** ** Checking *)

Lemma checkcb_world :
  forall bytes cb w,
    snd (fold_left (fun s ch => jsfSaveToFlash_checkcb ch s) bytes (cb, w)) = w.
Proof.
  induction bytes as [|ch bytes IH]; intros cb w; [reflexivity|].
  cbn [fold_left]. unfold jsfSaveToFlash_checkcb at 2.
  destruct (negb (byte.unsigned (jshFlashReadByte (w_flash w) (cb0 cb))
                  =? byte.unsigned ch)); apply IH.
Qed.

(** ** The whole save *)

Lemma jsfSaveToFlash_spec (fuel : nat) (heap : list byte) (w : world) :
  page_ok ->
  0 <= FLASH_SAVED_CODE_START ->
  FLASH_SAVED_CODE_START mod 4 = 0 ->
  FLASH_SAVED_CODE_START + 4 + Z.of_nat (length (encode_bytes heap)) + 3 < 2 ^ 32 ->
  (Z.to_nat FLASH_MAGIC_LOCATION <= fuel)%nat ->
  exists w' evs,
    jsfSaveToFlash fuel heap w = Some w'
    /\ writes_within (FLASH_SAVED_CODE_START + 4) FLASH_MAGIC_LOCATION evs
    /\ (FLASH_MAGIC_LOCATION
        <= FLASH_SAVED_CODE_START + 4 + Z.of_nat (length (encode_bytes heap)) + 3 ->
        w_trace w'
        = w_trace w ++ evs
          ++ [EvPrint (MsgTooBig
                         (4 + Z.of_nat (length (encode_bytes heap)))
                         (u32 (FLASH_MAGIC_LOCATION - FLASH_SAVED_CODE_START)))])
    /\ (FLASH_SAVED_CODE_START + 4 + Z.of_nat (length (encode_bytes heap)) + 3
        < FLASH_MAGIC_LOCATION ->
        exists tail,
          w_trace w'
          = w_trace w ++ evs
            ++ [EvPrint (MsgCompressed
                           (u32 (Z.of_nat (length heap)))
                           (4 + Z.of_nat (length (encode_bytes heap))));
                EvWrite FLASH_SAVED_CODE_START
                        (le_bytes (FLASH_SAVED_CODE_START + 4
                                   + Z.of_nat (length (encode_bytes heap))));
                EvWrite FLASH_MAGIC_LOCATION (le_bytes (u32 FLASH_MAGIC));
                EvPrint MsgChecking]
            ++ tail
          /\ flash_writes tail = []).
Proof.
  intros Hpage H0 Hal Hnw Hfuel. unfold jsfSaveToFlash.
  destruct (erase_saved_code_total fuel w Hpage Hfuel)
    as (wE & evsE & -> & HtE & HwE).
  destruct (write_saved_code_spec heap wE H0 Hal Hnw)
    as (cb & wW & evsW & -> & Hcb0 & Hcb1 & HtW & HwW).
  set (n := Z.of_nat (length (encode_bytes heap))) in *.
  assert (Hwritten : u32 (FLASH_SAVED_CODE_START + 4 + n - FLASH_SAVED_CODE_START)
                     = 4 + n).
  { rewrite <- (u32_small (4 + n)) by (unfold n; lia). f_equal. lia. }
  rewrite Hwritten, Hcb0, Hcb1.
  assert (Hevs : writes_within (FLASH_SAVED_CODE_START + 4)
                               FLASH_MAGIC_LOCATION (evsE ++ evsW)).
  { apply writes_within_app; [now apply no_writes_within | assumption]. }
  rewrite Z.geb_leb.
  destruct (FLASH_MAGIC_LOCATION <=? FLASH_SAVED_CODE_START + 4 + n + 3) eqn:E.
  - apply Z.leb_le in E. eexists. exists (evsE ++ evsW).
    split; [reflexivity|]. split; [exact Hevs|]. split; [|lia].
    intros _. unfold jsiConsolePrint. cbn [w_trace].
    rewrite HtW, HtE. now rewrite <- !app_assoc.
  - apply Z.leb_gt in E.
    rewrite rle_encode_stream.
    match goal with
    | |- context [fold_left ?f ?l (?c, ?x)] =>
        pose proof (checkcb_world l c x) as Hck;
        destruct (fold_left f l (c, x)) as [cbC wC]
    end.
    cbn [snd] in Hck. subst wC.
    unfold flash_write, jsiConsolePrint. cbn [w_trace w_flash].
    match goal with
    | |- context [jsfFlashContainsCode ?f] => destruct (jsfFlashContainsCode f)
    end; cbn [negb];
      match goal with
      | |- context [negb (?e =? 0)] => destruct (negb (e =? 0))
      end; cbn [w_trace];
      (eexists; exists (evsE ++ evsW);
       split; [reflexivity|]; split; [exact Hevs|]; split; [lia|];
       intros _; eexists; rewrite HtW, HtE; rewrite <- !app_assoc;
       cbn [app]; split; [reflexivity | reflexivity]).
Qed.

(** C5. Whenever the write cursor after the three flushing calls,
    [FLASH_SAVED_CODE_START + 4 + (bytes pushed) + 3], is at or beyond
    [FLASH_MAGIC_LOCATION], [jsfSaveToFlash] returns after reporting
    the overflow, and no flash write of the whole call touches the four
    header bytes at [FLASH_SAVED_CODE_START] or the four bytes of the
    magic word at [FLASH_MAGIC_LOCATION].  The page table is assumed to be
    well formed (so that erasing ends), the region to start on a word
    boundary and the 32-bit cursor not to wrap. *)
Theorem save_overflow_aborts (fuel : nat) (heap : list byte) (w : world) :
  page_ok ->
  0 <= FLASH_SAVED_CODE_START ->
  FLASH_SAVED_CODE_START mod 4 = 0 ->
  FLASH_SAVED_CODE_START + 4 + Z.of_nat (length (encode_bytes heap)) + 3 < 2 ^ 32 ->
  (Z.to_nat FLASH_MAGIC_LOCATION <= fuel)%nat ->
  FLASH_MAGIC_LOCATION
  <= FLASH_SAVED_CODE_START + 4 + Z.of_nat (length (encode_bytes heap)) + 3 ->
  cb1 (fst (snd (write_saved_code heap w)))
  = FLASH_SAVED_CODE_START + 4 + Z.of_nat (length (encode_bytes heap)) + 3
  /\ exists w' evs,
      jsfSaveToFlash fuel heap w = Some w'
      /\ w_trace w'
         = w_trace w ++ evs
           ++ [EvPrint (MsgTooBig
                          (4 + Z.of_nat (length (encode_bytes heap)))
                          (u32 (FLASH_MAGIC_LOCATION - FLASH_SAVED_CODE_START)))]
      /\ forall e x, In e evs -> touches e x ->
           ~ (FLASH_SAVED_CODE_START <= x < FLASH_SAVED_CODE_START + 4)
           /\ ~ (FLASH_MAGIC_LOCATION <= x < FLASH_MAGIC_LOCATION + 4).
Proof.
  intros Hpage H0 Hal Hnw Hfuel Hover. split.
  - destruct (write_saved_code_spec heap w H0 Hal Hnw)
      as (cb & wW & evsW & -> & _ & Hcb1 & _). exact Hcb1.
  - destruct (jsfSaveToFlash_spec fuel heap w Hpage H0 Hal Hnw Hfuel)
      as (w' & evs & Hsave & Hw & Hbig & _).
    exists w', evs. split; [exact Hsave|]. split; [now apply Hbig|].
    intros e x Hin Ht. unfold writes_within in Hw.
    rewrite Forall_forall in Hw. specialize (Hw e Hin x Ht). lia.
Qed.

(** C3 (as the code has it). A save whose compressed size is at most
    [FLASH_MAGIC_LOCATION - FLASH_SAVED_CODE_START - 8], so that the cursor
    is still below [FLASH_MAGIC_LOCATION] after the three flushing calls,
    writes the header and the magic word; a save whose compressed size is
    [FLASH_MAGIC_LOCATION - FLASH_SAVED_CODE_START - 7] or more (so also
    one of exactly [... - 4], and one byte more) reports the overflow and
    writes neither.  Same assumptions as for C5. *)
Theorem save_capacity_boundary (fuel : nat) (heap : list byte) (w : world) :
  page_ok ->
  0 <= FLASH_SAVED_CODE_START ->
  FLASH_SAVED_CODE_START mod 4 = 0 ->
  FLASH_SAVED_CODE_START + 4 + Z.of_nat (length (encode_bytes heap)) + 3 < 2 ^ 32 ->
  (Z.to_nat FLASH_MAGIC_LOCATION <= fuel)%nat ->
  exists w' evs,
    jsfSaveToFlash fuel heap w = Some w'
    /\ writes_within (FLASH_SAVED_CODE_START + 4) FLASH_MAGIC_LOCATION evs
    /\ (Z.of_nat (length (encode_bytes heap))
        <= FLASH_MAGIC_LOCATION - FLASH_SAVED_CODE_START - 8 ->
        exists tail,
          w_trace w'
          = w_trace w ++ evs
            ++ [EvPrint (MsgCompressed
                           (u32 (Z.of_nat (length heap)))
                           (4 + Z.of_nat (length (encode_bytes heap))));
                EvWrite FLASH_SAVED_CODE_START
                        (le_bytes (FLASH_SAVED_CODE_START + 4
                                   + Z.of_nat (length (encode_bytes heap))));
                EvWrite FLASH_MAGIC_LOCATION (le_bytes (u32 FLASH_MAGIC));
                EvPrint MsgChecking]
            ++ tail
          /\ flash_writes tail = [])
    /\ (FLASH_MAGIC_LOCATION - FLASH_SAVED_CODE_START - 7
        <= Z.of_nat (length (encode_bytes heap)) ->
        w_trace w'
        = w_trace w ++ evs
          ++ [EvPrint (MsgTooBig
                         (4 + Z.of_nat (length (encode_bytes heap)))
                         (u32 (FLASH_MAGIC_LOCATION - FLASH_SAVED_CODE_START)))]).
Proof.
  intros Hpage H0 Hal Hnw Hfuel.
  destruct (jsfSaveToFlash_spec fuel heap w Hpage H0 Hal Hnw Hfuel)
    as (w' & evs & Hsave & Hw & Hbig & Hfit).
  exists w', evs. split; [exact Hsave|]. split; [exact Hw|]. split.
  - intros Hle. apply Hfit. lia.
  - intros Hge. apply Hbig. lia.
Qed.

(** ** The write callback *)

Lemma shl24_byte (ch : byte) :
  u32 (Z.shiftl (byte.unsigned ch) 24) = Z.shiftl (byte.unsigned ch) 24.
Proof.
  pose proof (byte.unsigned_range ch) as Hr. change (2 ^ 8) with 256 in Hr.
  apply u32_small. rewrite Z.shiftl_mul_pow2 by lia.
  change (2 ^ 24) with 16777216. change (2 ^ 32) with 4294967296. lia.
Qed.

(** C7 (as the code has it). A call of the write callback with byte [ch]
    adds one to the address counter (modulo [2^32]) and leaves the end
    address alone.  When the counter is below the end address, the
    accumulator becomes [(ch << 24) | (old >> 8)] and a four-byte write of
    the accumulator to the word-aligned address happens exactly when the
    low two bits of the counter are 3.  When the counter is at or beyond
    the end address, the accumulator is unchanged and nothing is
    written. *)
Theorem writecb_effect (ch : byte) (cb : cbdata) (w : world) :
  let s' := jsfSaveToFlash_writecb ch (cb, w) in
  let acc := Z.lor (Z.shiftl (byte.unsigned ch) 24) (Z.shiftr (cb2 cb) 8) in
  cb0 (fst s') = cb0 cb
  /\ cb1 (fst s') = u32 (cb1 cb + 1)
  /\ (0 <= cb1 cb -> cb1 cb + 1 < 2 ^ 32 -> cb1 (fst s') = cb1 cb + 1)
  /\ (0 <= cb1 cb < 2 ^ 32 ->
      Z.land (cb1 cb) (u32 (Z.lnot 3)) = 4 * (cb1 cb / 4))
  /\ (cb1 cb < cb0 cb ->
      cb2 (fst s') = acc
      /\ flash_writes (w_trace (snd s'))
         = flash_writes (w_trace w)
           ++ (if Z.land (cb1 cb) 3 =? 3
               then [EvWrite (Z.land (cb1 cb) (u32 (Z.lnot 3))) (le_bytes acc)]
               else []))
  /\ (cb0 cb <= cb1 cb ->
      cb2 (fst s') = cb2 cb
      /\ flash_writes (w_trace (snd s')) = flash_writes (w_trace w)).
Proof.
  intros s' acc. subst s' acc.
  destruct (writecb_step ch cb w) as (evs & -> & Hw).
  rewrite shl24_byte in *. cbn [fst snd cb0 cb1 cb2 w_trace].
  rewrite flash_writes_app, Hw.
  split; [reflexivity|]. split; [reflexivity|].
  split; [intros; apply u32_small; lia|].
  split.
  { intros Hr. rewrite land_word_mask by assumption.
    Z.div_mod_to_equations. lia. }
  split.
  - intros Hlt. apply Z.ltb_lt in Hlt. rewrite Hlt. now split.
  - intros Hge. apply Z.ltb_ge in Hge. rewrite Hge.
    cbn [andb]. rewrite app_nil_r. now split.
Qed.

(** C8. From a cursor at [FLASH_SAVED_CODE_START + 4] and with end address
    [FLASH_MAGIC_LOCATION], whatever bytes the write callback is called
    with, no flash write touches an address at or beyond
    [FLASH_MAGIC_LOCATION]; and once the cursor is at or beyond the end
    address, further calls write nothing while the cursor goes on by one a
    call (as long as the 32-bit counter does not wrap). *)
Theorem writecb_stays_below_marker (bytes1 bytes2 : list byte) (acc : Z)
        (w : world) :
  let s0 := ({| cb0 := FLASH_MAGIC_LOCATION; cb1 := rleStart; cb2 := acc |}, w) in
  let s1 := run_writecb bytes1 s0 in
  let s2 := run_writecb bytes2 s1 in
  (exists evs,
      w_trace (snd s1) = w_trace w ++ evs
      /\ forall e x, In e evs -> touches e x -> x < FLASH_MAGIC_LOCATION)
  /\ (FLASH_MAGIC_LOCATION <= cb1 (fst s1) ->
      cb1 (fst s1) + Z.of_nat (length bytes2) < 2 ^ 32 ->
      flash_writes (w_trace (snd s2)) = flash_writes (w_trace (snd s1))
      /\ cb1 (fst s2) = cb1 (fst s1) + Z.of_nat (length bytes2)).
Proof.
  intros s0 s1 s2. subst s0 s1 s2.
  destruct (run_writecb_spec bytes1
              {| cb0 := FLASH_MAGIC_LOCATION; cb1 := rleStart; cb2 := acc |} w)
    as (cbA & wA & evsA & -> & H0A & HrngA & _ & HtA & HwA & _).
  { apply u32_range. }
  cbn [fst snd cb0] in *. split.
  - exists evsA. split; [exact HtA|]. intros e x Hin Ht.
    unfold writes_within in HwA. rewrite Forall_forall in HwA.
    specialize (HwA e Hin x Ht). lia.
  - intros Hge Hnw.
    destruct (run_writecb_spec bytes2 cbA wA HrngA)
      as (cbB & wB & evsB & -> & _ & _ & H1B & HtB & _ & HwB).
    cbn [fst snd]. destruct HwB as [_ Hno]; [lia|].
    rewrite HtB, flash_writes_app, Hno, app_nil_r by lia.
    split; [reflexivity|]. rewrite H1B. apply u32_small. lia.
Qed.

(** ** The presence check *)

Lemma to_int_inj x y : to_int x = to_int y -> u32 x = u32 y.
Proof.
  unfold to_int. pose proof (u32_range x). pose proof (u32_range y).
  destruct (u32 x <? 2 ^ 31) eqn:Ex; destruct (u32 y <? 2 ^ 31) eqn:Ey;
    try apply Z.ltb_lt in Ex; try apply Z.ltb_ge in Ex;
    try apply Z.ltb_lt in Ey; try apply Z.ltb_ge in Ey; lia.
Qed.

Lemma le_word_4_range (f : flash) (a : Z) :
  0 <= le_word (jshFlashRead f a 4) < 2 ^ 32.
Proof.
  unfold jshFlashRead, le_word. cbn [seq map fold_right].
  repeat match goal with
         | |- context [byte.unsigned ?b] =>
             let H := fresh in
             pose proof (byte.unsigned_range b) as H;
             change (2 ^ 8) with 256 in H;
             generalize dependent (byte.unsigned b); intros
         end.
  change (2 ^ 32) with 4294967296. lia.
Qed.

Lemma jsfFlashContainsCode_true (f : flash) :
  jsfFlashContainsCode f = true ->
  le_word (jshFlashRead f FLASH_MAGIC_LOCATION 4) = u32 FLASH_MAGIC.
Proof.
  unfold jsfFlashContainsCode. intros H. apply Z.eqb_eq, to_int_inj in H.
  now rewrite u32_small in H by apply le_word_4_range.
Qed.

(** C9. If the four bytes at [FLASH_MAGIC_LOCATION] are not the magic
    word, [jsfLoadFromFlash] prints that there is no code in flash and
    returns without a single store through the heap pointer (and with the
    flash as it was). *)
Theorem load_without_marker (fuel : nat) (basePtr : Z) (w : world) :
  le_word (jshFlashRead (w_flash w) FLASH_MAGIC_LOCATION 4) <> u32 FLASH_MAGIC ->
  jsfFlashContainsCode (w_flash w) = false
  /\ jsfLoadFromFlash fuel basePtr w
     = Some ({| w_flash := w_flash w;
                w_trace := w_trace w ++ [EvPrint MsgNoCode] |},
             {| d_ptr := basePtr; d_stores := [] |}).
Proof.
  intros Hne. unfold jsfLoadFromFlash.
  destruct (jsfFlashContainsCode (w_flash w)) eqn:E.
  - now apply jsfFlashContainsCode_true in E.
  - split; reflexivity.
Qed.

(** ** Loading *)

Lemma jshFlashRead_S (f : flash) (a : Z) (n : nat) :
  jshFlashRead f a (S n) = jshFlashReadByte f a :: jshFlashRead f (a + 1) n.
Proof.
  unfold jshFlashRead. cbn [seq map]. rewrite Z.add_0_r. f_equal.
  rewrite <- seq_shift, map_map. apply map_ext.
  intros i. f_equal. lia.
Qed.

Lemma readcb_pull (f : flash) (cb : cbdata) :
  0 <= cb1 cb -> cb0 cb < 2 ^ 32 ->
  exists cb',
    jsfLoadFromFlash_readcb f cb
    = (fst (pull_byte (flash_stream f cb)), cb')
    /\ snd (pull_byte (flash_stream f cb)) = flash_stream f cb'
    /\ 0 <= cb1 cb' /\ cb0 cb' = cb0 cb.
Proof.
  intros H0 Hend. unfold jsfLoadFromFlash_readcb, flash_stream.
  rewrite Z.geb_leb. destruct (cb0 cb <=? cb1 cb) eqn:E.
  - apply Z.leb_le in E. exists cb.
    replace (Z.to_nat (cb0 cb - cb1 cb)) with 0%nat by lia.
    repeat split; auto.
  - apply Z.leb_gt in E. eexists. split; [|split; [|split]].
    + replace (Z.to_nat (cb0 cb - cb1 cb))
        with (S (Z.to_nat (cb0 cb - (cb1 cb + 1)))) by lia.
      rewrite jshFlashRead_S. cbn [pull_byte fst]. reflexivity.
    + cbn [cb0 cb1]. rewrite u32_small by lia.
      replace (Z.to_nat (cb0 cb - cb1 cb))
        with (S (Z.to_nat (cb0 cb - (cb1 cb + 1)))) by lia.
      rewrite jshFlashRead_S. reflexivity.
    + cbn [cb1]. pose proof (u32_range (cb1 cb + 1)). lia.
    + reflexivity.
Qed.

Lemma decode_readcb (f : flash) :
  forall fuel lastCh cb d, 0 <= cb1 cb -> cb0 cb < 2 ^ 32 ->
    option_map snd (rle_decode_loop (jsfLoadFromFlash_readcb f) fuel lastCh cb d)
    = option_map snd (rle_decode_loop pull_byte fuel lastCh (flash_stream f cb) d).
Proof.
  induction fuel as [|fuel IH]; intros lastCh cb d H0 Hend; [reflexivity|].
  cbn [rle_decode_loop].
  destruct (readcb_pull f cb H0 Hend) as (cbA & -> & HsA & H0A & HeA).
  destruct (pull_byte (flash_stream f cb)) as [ch s1]. cbn [fst snd] in *.
  subst s1. destruct (ch <? 0); [reflexivity|].
  destruct (ch =? lastCh).
  - destruct (readcb_pull f cbA) as (cbB & -> & HsB & H0B & HeB); [lia..|].
    destruct (pull_byte (flash_stream f cbA)) as [cnt s2]. cbn [fst snd] in *.
    subst s2. apply IH; lia.
  - apply IH; lia.
Qed.

Lemma bytes_at_range (l : list byte) :
  forall p a b, In (a, b) (bytes_at p l) -> p <= a < p + Z.of_nat (length l).
Proof.
  induction l as [|c l IH]; intros p a b Hin; [contradiction|].
  cbn [bytes_at length] in *. destruct Hin as [[= <- <-]|Hin].
  - lia.
  - apply IH in Hin. lia.
Qed.

(** C4 (as the code has it). [rle_decode] as [jsfLoadFromFlash] calls it
    is given the heap pointer and no length: it stores what the stream
    decodes to.  When the magic word is there and the bytes between
    [FLASH_SAVED_CODE_START + 4] and the end address of the header are
    what [rle_encode] pushed for a heap, then (with at least one iteration
    more than the stream has bytes) it returns after storing exactly the
    bytes of that heap, from the heap pointer on, and none beyond them. *)
Theorem load_stores_snapshot (fuel : nat) (basePtr : Z) (w : world)
        (heap : list byte) :
  let endOfData := le_word (jshFlashRead (w_flash w) FLASH_SAVED_CODE_START 4) in
  jsfFlashContainsCode (w_flash w) = true ->
  0 <= FLASH_SAVED_CODE_START < 2 ^ 32 - 4 ->
  jshFlashRead (w_flash w) (FLASH_SAVED_CODE_START + 4)
               (Z.to_nat (endOfData - (FLASH_SAVED_CODE_START + 4)))
  = encode_bytes heap ->
  (length (encode_bytes heap) < fuel)%nat ->
  jsfLoadFromFlash fuel basePtr w
  = Some (jsiConsolePrint
            (MsgLoading (u32 (endOfData - FLASH_SAVED_CODE_START))) w,
          {| d_ptr := basePtr + Z.of_nat (length heap);
             d_stores := bytes_at basePtr heap |})
  /\ length (bytes_at basePtr heap) = length heap
  /\ forall a b, In (a, b) (bytes_at basePtr heap) ->
       basePtr <= a < basePtr + Z.of_nat (length heap).
Proof.
  intros endOfData Hmagic Hstart Hstream Hfuel.
  split; [|split; [|apply bytes_at_range]].
  - unfold jsfLoadFromFlash. rewrite Hmagic. cbn [negb].
    fold endOfData. unfold rle_decode. cbn [w_flash jsiConsolePrint].
    set (cb := {| cb0 := endOfData;
                  cb1 := u32 (FLASH_SAVED_CODE_START + 4); cb2 := 0 |}).
    set (d0 := {| d_ptr := basePtr; d_stores := [] |}).
    pose proof (le_word_4_range (w_flash w) FLASH_SAVED_CODE_START) as Hend.
    fold endOfData in Hend.
    assert (Hdec : option_map snd
                     (rle_decode_loop (jsfLoadFromFlash_readcb (w_flash w))
                                      fuel (-256) cb d0)
                   = option_map snd
                       (rle_decode_loop pull_byte fuel (-256)
                                        (flash_stream (w_flash w) cb) d0)).
    { apply decode_readcb; cbn [cb cb0 cb1];
        [pose proof (u32_range (FLASH_SAVED_CODE_START + 4)); lia | lia]. }
    assert (Hs : flash_stream (w_flash w) cb = encode_bytes heap).
    { unfold flash_stream, cb. cbn [cb0 cb1].
      rewrite u32_small by lia. exact Hstream. }
    rewrite Hs, encode_bytes_enc in Hdec.
    replace fuel
      with (S (length (enc (-1) heap))
            + (fuel - S (length (enc (-1) heap))))%nat in Hdec at 2
      by (rewrite encode_bytes_enc in Hfuel; lia).
    rewrite (decode_enc (length heap)) in Hdec by (auto; lia).
    rewrite fold_store in Hdec. cbn [option_map snd d0 d_ptr d_stores app] in Hdec.
    destruct (rle_decode_loop (jsfLoadFromFlash_readcb (w_flash w))
                              fuel (-256) cb d0) as [[cb' d']|];
      [|discriminate].
    cbn [option_map snd] in Hdec. injection Hdec as Hd.
    subst d'. reflexivity.
  - clear. revert basePtr. induction heap as [|b heap IH]; intros p;
      cbn [bytes_at length]; [reflexivity | now rewrite IH].
Qed.

End FlashProps.

(** * The save and load paths on the small board *)

Lemma sim_page_ok : @page_ok sim.
Proof.
  intros addr ps pl. cbn [jshFlashGetPage sim]. unfold sim_get_page.
  destruct ((0 <=? addr) && (addr <? 64)) eqn:E; [|discriminate].
  apply andb_prop in E as [E1 E2].
  apply Z.leb_le in E1. apply Z.ltb_lt in E2.
  intros Heq.
  assert (ps = 16 * (addr / 16) /\ pl = 16) as [-> ->] by (split; congruence).
  change (2 ^ 32) with 4294967296. Z.div_mod_to_equations. lia.
Qed.

(** A heap of 24 bytes, whose 24 compressed bytes end exactly at the magic
    word ([20 + 24 = 44]): the save is refused. *)
Lemma save_overflow_aborts_witness :
  exists w' evs,
    jsfSaveToFlash 44 (bytes_1_to 24) sim_blank = Some w'
    /\ w_trace w' = evs ++ [EvPrint (MsgTooBig 28 28)]
    /\ forall e x, In e evs -> touches e x ->
         ~ (16 <= x < 20) /\ ~ (44 <= x < 48).
Proof.
  destruct (@save_overflow_aborts sim 44 (bytes_1_to 24) sim_blank)
    as (_ & w' & evs & H1 & H2 & H3).
  - exact sim_page_ok.
  - vm_compute. discriminate.
  - reflexivity.
  - reflexivity.
  - vm_compute. lia.
  - vm_compute. discriminate.
  - exists w', evs. split; [exact H1|]. split; [exact H2 | exact H3].
Defined.

(** C3 as stated fails: on the small board a heap whose compressed size
    is exactly [44 - 16 - 4 = 24] bytes is refused; the only flash writes
    are the six words of the payload, at 20 to 40. *)
Lemma save_exact_fit_is_refused :
  Z.of_nat (length (encode_bytes (bytes_1_to 24)))
  = @FLASH_MAGIC_LOCATION sim - @FLASH_SAVED_CODE_START sim - 4
  /\ option_map (fun w => last (w_trace w) (EvPrint MsgDone))
                (jsfSaveToFlash 44 (bytes_1_to 24) sim_blank)
     = Some (EvPrint (MsgTooBig 28 28))
  /\ option_map (fun w => map (fun e => match e with
                                        | EvWrite a _ => a
                                        | _ => -1
                                        end)
                              (flash_writes (w_trace w)))
                (jsfSaveToFlash 44 (bytes_1_to 24) sim_blank)
     = Some [20; 24; 28; 32; 36; 40].
Proof. vm_compute. repeat split; reflexivity. Qed.

(** A heap of 20 bytes, the largest that fits on the small board. *)
Lemma save_capacity_boundary_witness :
  exists w' evs tail,
    jsfSaveToFlash 44 (bytes_1_to 20) sim_blank = Some w'
    /\ writes_within 20 44 evs
    /\ w_trace w'
       = evs ++ [EvPrint (MsgCompressed 20 24);
                 EvWrite 16 (le_bytes 40);
                 EvWrite 44 (le_bytes 0xDEADBEEF);
                 EvPrint MsgChecking] ++ tail
    /\ flash_writes tail = [].
Proof.
  destruct (@save_capacity_boundary sim 44 (bytes_1_to 20) sim_blank)
    as (w' & evs & H1 & H2 & H3 & _).
  - exact sim_page_ok.
  - vm_compute. discriminate.
  - reflexivity.
  - reflexivity.
  - vm_compute. lia.
  - destruct H3 as (tail & H3 & H4).
    + vm_compute. discriminate.
    + exists w', evs, tail. repeat split; assumption.
Defined.

(** A call below the end address, on the last byte of a word. *)
Lemma writecb_effect_witness :
  let s' := @jsfSaveToFlash_writecb sim (byte.of_Z 1)
              ({| cb0 := 44; cb1 := 23; cb2 := 0 |}, sim_blank) in
  cb1 (fst s') = 24
  /\ cb2 (fst s') = 0x01000000
  /\ flash_writes (w_trace (snd s')) = [EvWrite 20 (le_bytes 0x01000000)].
Proof.
  destruct (@writecb_effect sim (byte.of_Z 1)
              {| cb0 := 44; cb1 := 23; cb2 := 0 |} sim_blank)
    as (_ & _ & Hinc & _ & Hlt & _).
  cbv zeta. split; [|apply Hlt].
  - apply Hinc.
    + vm_compute. discriminate.
    + reflexivity.
  - reflexivity.
Defined.

(** C7 as stated fails: at address 47, whose low two bits are 3 but which
    is beyond the end address 44, the accumulator does not take the byte
    in and nothing is written. *)
Lemma writecb_beyond_end_is_idle :
  let s' := @jsfSaveToFlash_writecb sim (byte.of_Z 1)
              ({| cb0 := 44; cb1 := 47; cb2 := 0 |}, sim_blank) in
  Z.land 47 3 = 3
  /\ cb2 (fst s') = 0
  /\ cb2 (fst s') <> Z.lor (Z.shiftl 1 24) (Z.shiftr 0 8)
  /\ flash_writes (w_trace (snd s')) = []
  /\ cb1 (fst s') = 48.
Proof. vm_compute. repeat split; discriminate. Qed.

(** Twenty-six bytes take the cursor from 20 to 46, beyond the magic word
    at 44; five more calls write nothing. *)
Lemma writecb_stays_below_marker_witness :
  let s0 := ({| cb0 := 44; cb1 := 20; cb2 := 0 |}, sim_blank) in
  let s1 := run_writecb (bytes_1_to 26) s0 in
  let s2 := run_writecb (bytes_1_to 5) s1 in
  flash_writes (w_trace (snd s2)) = flash_writes (w_trace (snd s1))
  /\ cb1 (fst s2) = cb1 (fst s1) + 5.
Proof.
  destruct (@writecb_stays_below_marker sim (bytes_1_to 26) (bytes_1_to 5)
              0 sim_blank) as (_ & H).
  cbv zeta. apply H.
  - vm_compute. discriminate.
  - reflexivity.
Defined.

(** The blank board has no magic word. *)
Lemma load_without_marker_witness :
  jsfLoadFromFlash 10 1000 sim_blank
  = Some ({| w_flash := w_flash sim_blank; w_trace := [EvPrint MsgNoCode] |},
          {| d_ptr := 1000; d_stores := [] |}).
Proof.
  apply (@load_without_marker sim 10 1000 sim_blank).
  vm_compute. discriminate.
Defined.

(** Loading what was saved for [example_heap] stores its six bytes. *)
Lemma load_stores_snapshot_witness :
  jsfLoadFromFlash 10 1000 sim_saved
  = Some (jsiConsolePrint (MsgLoading 8) sim_saved,
          {| d_ptr := 1006; d_stores := bytes_at 1000 example_heap |}).
Proof.
  apply (@load_stores_snapshot sim 10 1000 sim_saved example_heap).
  - reflexivity.
  - vm_compute. split; [discriminate | reflexivity].
  - reflexivity.
  - vm_compute. lia.
Defined.

(** C4 as stated fails: for a heap of four bytes at address 1000, loading
    the damaged snapshot makes 257 stores, the last of them at address
    1256. *)
Lemma load_corrupt_overruns_heap :
  let heapByteLength := 4%nat in
  let r := jsfLoadFromFlash 10 1000 sim_corrupt in
  option_map (fun r => length (d_stores (snd r))) r = Some 257%nat
  /\ (heapByteLength < 257)%nat
  /\ option_map (fun r => nth_error (d_stores (snd r)) 256) r
     = Some (Some (1256, byte.of_Z 0x41)).
Proof. vm_compute. repeat split; lia. Qed.

(** * Further properties of the flash save and load paths *)

(** ** Words and bytes *)

Lemma lor_acc (c acc : Z) :
  0 <= c < 256 -> 0 <= acc < 2 ^ 32 ->
  Z.lor (u32 (Z.shiftl c 24)) (Z.shiftr acc 8) = c * 2 ^ 24 + acc / 2 ^ 8.
Proof.
  intros Hc Ha.
  rewrite u32_small
    by (rewrite Z.shiftl_mul_pow2 by lia;
        change (2 ^ 24) with 16777216; change (2 ^ 32) with 4294967296; lia).
  rewrite Z.shiftr_div_pow2, Z.shiftl_mul_pow2 by lia.
  assert (Hlo : 0 <= acc / 2 ^ 8 < 2 ^ 24).
  { change (2 ^ 8) with 256. change (2 ^ 24) with 16777216.
    change (2 ^ 32) with 4294967296 in Ha. Z.div_mod_to_equations. lia. }
  assert (Hland : Z.land (c * 2 ^ 24) (acc / 2 ^ 8) = 0).
  { apply Z.bits_inj'. intros n Hn. rewrite Z.land_spec, Z.bits_0.
    destruct (Z.lt_ge_cases n 24) as [Hlt|Hge].
    - rewrite Z.mul_pow2_bits_low by lia. reflexivity.
    - rewrite <- (Z.mod_small (acc / 2 ^ 8) (2 ^ 24)) by lia.
      rewrite Z.mod_pow2_bits_high by lia. apply andb_false_r. }
  rewrite <- Z.lxor_lor by assumption.
  symmetry. now apply Z.add_nocarry_lxor.
Qed.

Lemma byte_of_Z_eq (x : Z) (b : byte) :
  x mod 256 = byte.unsigned b -> byte.of_Z x = b.
Proof.
  intros H. apply byte.unsigned_inj. rewrite byte.unsigned_of_Z.
  unfold byte.wrap. change (2 ^ 8) with 256. exact H.
Qed.

Lemma le_bytes_le_word (b0 b1 b2 b3 : byte) :
  le_bytes (le_word [b0; b1; b2; b3]) = [b0; b1; b2; b3].
Proof.
  pose proof (byte.unsigned_range b0) as H0.
  pose proof (byte.unsigned_range b1) as H1.
  pose proof (byte.unsigned_range b2) as H2.
  pose proof (byte.unsigned_range b3) as H3.
  change (2 ^ 8) with 256 in *.
  unfold le_bytes, le_word. cbn [fold_right].
  rewrite !Z.shiftr_div_pow2 by lia.
  change (2 ^ 8) with 256. change (2 ^ 16) with 65536.
  change (2 ^ 24) with 16777216.
  repeat f_equal; apply byte_of_Z_eq; Z.div_mod_to_equations; lia.
Qed.

Lemma le_word_le_bytes (x : Z) :
  0 <= x < 2 ^ 32 -> le_word (le_bytes x) = x.
Proof.
  intros Hx. change (2 ^ 32) with 4294967296 in Hx.
  unfold le_bytes, le_word. cbn [fold_right].
  rewrite !byte.unsigned_of_Z. unfold byte.wrap.
  rewrite !Z.shiftr_div_pow2 by lia.
  change (2 ^ 8) with 256. change (2 ^ 16) with 65536.
  change (2 ^ 24) with 16777216.
  Z.div_mod_to_equations. lia.
Qed.

Lemma acc_holds_nil (acc : Z) : 0 <= acc < 2 ^ 32 -> acc_holds acc [].
Proof.
  intros H. split; [exact H|]. cbn [length le_word fold_right].
  change (2 ^ (8 * (4 - Z.of_nat 0))) with (2 ^ 32). now apply Z.div_small.
Qed.

Lemma acc_holds_push (acc : Z) (pend : list byte) (b : byte) :
  acc_holds acc pend -> (length pend <= 3)%nat ->
  acc_holds (Z.lor (u32 (Z.shiftl (byte.unsigned b) 24)) (Z.shiftr acc 8))
            (pend ++ [b]).
Proof.
  intros [Hr Hp] Hl. pose proof (byte.unsigned_range b) as Hb.
  change (2 ^ 8) with 256 in Hb.
  rewrite lor_acc by assumption. unfold acc_holds.
  change (2 ^ 24) with 16777216. change (2 ^ 8) with 256.
  change (2 ^ 32) with 4294967296 in *.
  destruct pend as [|p0 [|p1 [|p2 [|p3 pend]]]]; [| | | |simpl in Hl; lia];
    cbn [length app le_word fold_right] in *;
    repeat match goal with
           | |- context [byte.unsigned ?p] =>
               let H := fresh in
               pose proof (byte.unsigned_range p) as H;
               change (2 ^ 8) with 256 in H;
               generalize dependent (byte.unsigned p); intros
           end.
  - change (2 ^ (8 * (4 - Z.of_nat 1))) with 16777216.
    change (2 ^ (8 * (4 - Z.of_nat 0))) with 4294967296 in Hp.
    split; Z.div_mod_to_equations; lia.
  - change (2 ^ (8 * (4 - Z.of_nat 2))) with 65536.
    change (2 ^ (8 * (4 - Z.of_nat 1))) with 16777216 in Hp.
    split; Z.div_mod_to_equations; lia.
  - change (2 ^ (8 * (4 - Z.of_nat 3))) with 256.
    change (2 ^ (8 * (4 - Z.of_nat 2))) with 65536 in Hp.
    split; Z.div_mod_to_equations; lia.
  - change (2 ^ (8 * (4 - Z.of_nat 4))) with 1.
    change (2 ^ (8 * (4 - Z.of_nat 3))) with 256 in Hp.
    split; Z.div_mod_to_equations; lia.
Qed.

Lemma acc_holds_word (acc : Z) (b0 b1 b2 b3 : byte) :
  acc_holds acc [b0; b1; b2; b3] -> le_bytes acc = [b0; b1; b2; b3].
Proof.
  intros [_ Hp]. cbn [length] in Hp.
  change (2 ^ (8 * (4 - Z.of_nat 4))) with 1 in Hp.
  rewrite Z.div_1_r in Hp. rewrite Hp. apply le_bytes_le_word.
Qed.

Section FlashExtra.
Context {P : Platform}.

(** ** Worlds and their traces *)

Lemma steps_refl (w : world) : steps w [] w.
Proof. split; [now rewrite app_nil_r | reflexivity]. Qed.

Lemma steps_trans (w w1 w2 : world) (e1 e2 : list event) :
  steps w e1 w1 -> steps w1 e2 w2 -> steps w (e1 ++ e2) w2.
Proof.
  intros [Ht1 Hf1] [Ht2 Hf2]. split.
  - now rewrite Ht2, Ht1, app_assoc.
  - unfold replay in *. now rewrite Hf2, Hf1, fold_left_app.
Qed.

Lemma steps_print (m : console_msg) (w : world) :
  steps w [EvPrint m] (jsiConsolePrint m w).
Proof. split; reflexivity. Qed.

Lemma steps_erase (pageStart : Z) (w : world) :
  steps w [EvErase pageStart] (flash_erase pageStart w).
Proof. split; reflexivity. Qed.

Lemma steps_write (buf : list byte) (addr : Z) (w : world) :
  steps w [EvWrite addr buf] (flash_write buf addr w).
Proof. split; reflexivity. Qed.

Lemma steps_inj (w w' : world) (e1 e2 : list event) :
  steps w e1 w' -> steps w e2 w' -> e1 = e2.
Proof.
  intros [H1 _] [H2 _]. rewrite H1 in H2. now apply app_inv_head in H2.
Qed.

Lemma no_erase_app e1 e2 : no_erase e1 -> no_erase e2 -> no_erase (e1 ++ e2).
Proof. intros. apply Forall_app. now split. Qed.

(** ** The write callback, event by event *)

Lemma writecb_steps (ch : byte) (cb : cbdata) (w : world) :
  exists w' evs,
    jsfSaveToFlash_writecb ch (cb, w)
    = ({| cb0 := cb0 cb;
          cb1 := u32 (cb1 cb + 1);
          cb2 := if cb1 cb <? cb0 cb
                 then Z.lor (u32 (Z.shiftl (byte.unsigned ch) 24))
                            (Z.shiftr (cb2 cb) 8)
                 else cb2 cb |}, w')
    /\ steps w evs w'
    /\ no_erase evs
    /\ flash_writes evs
       = if (cb1 cb <? cb0 cb) && (Z.land (cb1 cb) 3 =? 3)
         then [EvWrite (Z.land (cb1 cb) (u32 (Z.lnot 3)))
                       (le_bytes (Z.lor (u32 (Z.shiftl (byte.unsigned ch) 24))
                                        (Z.shiftr (cb2 cb) 8)))]
         else [].
Proof.
  unfold jsfSaveToFlash_writecb.
  destruct (cb1 cb <? cb0 cb); cbn [andb cb0 cb1 cb2];
    [destruct (Z.land (cb1 cb) 3 =? 3); cbn [cb0 cb1 cb2]|];
    destruct (Z.land (u32 (cb1 cb + 1)) 1023 =? 0).
  - do 2 eexists. split; [reflexivity|].
    split; [eapply (steps_trans _ _ _ [_] [_]);
            [apply steps_write | apply steps_print]
           | split; [repeat constructor | reflexivity]].
  - do 2 eexists. split; [reflexivity|].
    split; [apply steps_write | split; [repeat constructor | reflexivity]].
  - do 2 eexists. split; [reflexivity|].
    split; [apply steps_print | split; [repeat constructor | reflexivity]].
  - do 2 eexists. split; [reflexivity|].
    split; [apply steps_refl | split; [constructor | reflexivity]].
  - do 2 eexists. split; [destruct cb; reflexivity|].
    split; [apply steps_print | split; [repeat constructor | reflexivity]].
  - do 2 eexists. split; [destruct cb; reflexivity|].
    split; [apply steps_refl | split; [constructor | reflexivity]].
Qed.

Lemma words_at_short (a : Z) (pend : list byte) :
  (length pend <= 3)%nat -> words_at a pend = [].
Proof.
  destruct pend as [|p0 [|p1 [|p2 [|p3 pend]]]]; intros H;
    try reflexivity. simpl in H. lia.
Qed.

(** The words that calls of the write callback write, as long as the
    cursor stays below the end address. *)
Lemma run_writecb_words :
  forall bytes pend cb w,
    (length pend <= 3)%nat ->
    acc_holds (cb2 cb) pend ->
    cb1 cb mod 4 = Z.of_nat (length pend) ->
    0 <= cb1 cb ->
    cb1 cb + Z.of_nat (length bytes) <= cb0 cb ->
    cb1 cb + Z.of_nat (length bytes) < 2 ^ 32 ->
    exists cb' w' evs,
      run_writecb bytes (cb, w) = (cb', w')
      /\ steps w evs w'
      /\ no_erase evs
      /\ flash_writes evs
         = words_at (cb1 cb - Z.of_nat (length pend)) (pend ++ bytes)
      /\ cb0 cb' = cb0 cb
      /\ cb1 cb' = cb1 cb + Z.of_nat (length bytes).
Proof.
  induction bytes as [|b bytes IH]; intros pend cb w Hl Hacc Hmod H0 Hfit Hnw.
  - exists cb, w, []. cbn [run_writecb fold_left length Z.of_nat].
    rewrite app_nil_r, words_at_short by assumption.
    split; [reflexivity|]. split; [apply steps_refl|].
    split; [constructor|]. split; [reflexivity|]. split; lia.
  - cbn [run_writecb fold_left length] in *. rewrite Nat2Z.inj_succ in *.
    destruct (writecb_steps b cb w) as (w1 & evs1 & -> & Hs1 & Hne1 & Hw1).
    fold (run_writecb bytes).
    replace (cb1 cb <? cb0 cb) with true in * by (symmetry; apply Z.ltb_lt; lia).
    rewrite land_3, u32_small in * by lia. cbn [andb] in Hw1.
    pose proof (acc_holds_push _ _ b Hacc Hl) as Hacc'.
    set (acc' := Z.lor (u32 (Z.shiftl (byte.unsigned b) 24))
                       (Z.shiftr (cb2 cb) 8)) in *.
    destruct (Nat.eq_dec (length pend) 3) as [H3|H3].
    + destruct pend as [|p0 [|p1 [|p2 [|p3 pend]]]]; try discriminate H3.
      cbn [length app] in *.
      rewrite Hmod in Hw1. change (Z.of_nat 3 =? 3) with true in Hw1.
      rewrite land_word_mask in Hw1 by lia. rewrite Hmod in Hw1.
      rewrite (acc_holds_word _ _ _ _ _ Hacc') in Hw1.
      destruct (IH [] {| cb0 := cb0 cb; cb1 := cb1 cb + 1; cb2 := acc' |} w1)
        as (cb' & w' & evs2 & Hrun & Hs2 & Hne2 & Hw2 & Hc0 & Hc1);
        cbn [cb0 cb1 cb2 length];
        [lia | apply acc_holds_nil; apply Hacc'
         | Z.div_mod_to_equations; lia | lia | lia | lia |].
      exists cb', w', (evs1 ++ evs2). unfold run_writecb in Hrun. rewrite Hrun.
      split; [reflexivity|]. split; [eapply steps_trans; eassumption|].
      split; [now apply no_erase_app|].
      split; [|cbn [cb0 cb1] in *; split; lia].
      rewrite flash_writes_app, Hw1, Hw2. cbn [cb1 length app words_at].
      f_equal. f_equal. lia.
    + assert (Hne : (Z.of_nat (length pend) =? 3) = false)
        by (apply Z.eqb_neq; lia).
      rewrite Hmod, Hne in Hw1.
      destruct (IH (pend ++ [b])
                   {| cb0 := cb0 cb; cb1 := cb1 cb + 1; cb2 := acc' |} w1)
        as (cb' & w' & evs2 & Hrun & Hs2 & Hne2 & Hw2 & Hc0 & Hc1);
        cbn [cb0 cb1 cb2]; rewrite ?length_app; cbn [length];
        [lia | exact Hacc' | Z.div_mod_to_equations; lia | lia | lia | lia |].
      exists cb', w', (evs1 ++ evs2). unfold run_writecb in Hrun. rewrite Hrun.
      split; [reflexivity|]. split; [eapply steps_trans; eassumption|].
      split; [now apply no_erase_app|].
      split; [|cbn [cb0 cb1] in *; split; lia].
      rewrite flash_writes_app, Hw1, Hw2. cbn [app cb1].
      rewrite length_app, <- app_assoc. cbn [length app].
      f_equal. lia.
Qed.

Lemma run_writecb_steps :
  forall bytes cb w,
  exists cb' w' evs,
    run_writecb bytes (cb, w) = (cb', w')
    /\ steps w evs w'
    /\ no_erase evs.
Proof.
  induction bytes as [|b bytes IH]; intros cb w.
  - exists cb, w, []. split; [reflexivity|].
    split; [apply steps_refl | constructor].
  - cbn [run_writecb fold_left].
    destruct (writecb_steps b cb w) as (w1 & evs1 & -> & Hs1 & Hne1 & _).
    match goal with
    | |- context [fold_left _ bytes (?c, w1)] =>
        destruct (IH c w1) as (cb' & w' & evs2 & Hrun & Hs2 & Hne2)
    end.
    unfold run_writecb in Hrun. rewrite Hrun.
    exists cb', w', (evs1 ++ evs2). split; [reflexivity|].
    split; [eapply steps_trans; eassumption | now apply no_erase_app].
Qed.

(** ** Replaying a trace on the flash *)

Lemma replay_app (f : flash) (e1 e2 : list event) :
  replay f (e1 ++ e2) = replay (replay f e1) e2.
Proof. apply fold_left_app. Qed.

Lemma replay_no_erase (evs : list event) :
  no_erase evs -> forall f, replay f evs = replay f (flash_writes evs).
Proof.
  induction evs as [|e evs IH]; intros H f; [reflexivity|].
  inversion H as [|? ? He Hevs]; subst.
  destruct e; cbn [is_erase] in He; try discriminate;
    cbn [replay fold_left apply_event flash_writes filter is_write];
    apply IH; assumption.
Qed.

Lemma byte_and_ff (b : byte) : byte.and (byte.of_Z 0xFF) b = b.
Proof.
  unfold byte.and. apply byte_of_Z_eq.
  pose proof (byte.unsigned_range b) as Hb. change (2 ^ 8) with 256 in Hb.
  change (byte.unsigned (byte.of_Z 255)) with (Z.ones 8).
  rewrite Z.land_comm, Z.land_ones by lia.
  change (2 ^ 8) with 256. rewrite Z.mod_mod by lia. now apply Z.mod_small.
Qed.

(** Writing over erased bytes stores what is written. *)
Lemma write_erased (f : flash) (buf : list byte) (a x : Z) :
  write_law ->
  (forall y, a <= y < a + Z.of_nat (length buf) ->
             jshFlashReadByte f y = byte.of_Z 0xFF) ->
  jshFlashReadByte (jshFlashWrite f buf a) x
  = if (a <=? x) && (x <? a + Z.of_nat (length buf))
    then nth (Z.to_nat (x - a)) buf (byte.of_Z 0xFF)
    else jshFlashReadByte f x.
Proof.
  intros Hw Hff. rewrite Hw.
  destruct ((a <=? x) && (x <? a + Z.of_nat (length buf))) eqn:E;
    [|reflexivity].
  apply andb_prop in E as [E1 E2]. apply Z.leb_le in E1. apply Z.ltb_lt in E2.
  rewrite Hff by lia. apply byte_and_ff.
Qed.

(** Writing [bs] as words over erased bytes stores its whole words and
    leaves the other bytes. *)
Lemma replay_words :
  write_law ->
  forall n bs a f, (length bs <= n)%nat ->
    (forall y, a <= y < a + 4 * (Z.of_nat (length bs) / 4) ->
               jshFlashReadByte f y = byte.of_Z 0xFF) ->
    forall x,
      jshFlashReadByte (replay f (words_at a bs)) x
      = if (a <=? x) && (x <? a + 4 * (Z.of_nat (length bs) / 4))
        then nth (Z.to_nat (x - a)) bs (byte.of_Z 0xFF)
        else jshFlashReadByte f x.
Proof.
  intros Hw. induction n as [|n IH]; intros bs a f Hn Hff x.
  - destruct bs; [|simpl in Hn; lia]. cbn [words_at replay fold_left length].
    change (4 * (Z.of_nat 0 / 4)) with 0.
    replace ((a <=? x) && (x <? a + 0)) with false; [reflexivity|].
    symmetry. apply andb_false_iff.
    destruct (Z.le_gt_cases a x); [right; apply Z.ltb_ge | left; apply Z.leb_gt]; lia.
  - destruct bs as [|b0 [|b1 [|b2 [|b3 rest]]]];
      try (cbn [words_at replay fold_left length];
           match goal with
           | |- context [4 * (Z.of_nat ?k / 4)] =>
               change (4 * (Z.of_nat k / 4)) with 0
           end;
           replace ((a <=? x) && (x <? a + 0)) with false; [reflexivity|];
           symmetry; apply andb_false_iff;
           destruct (Z.le_gt_cases a x);
           [right; apply Z.ltb_ge | left; apply Z.leb_gt]; lia).
    cbn [length] in Hn, Hff |- *.
    assert (Hlen : 4 * (Z.of_nat (S (S (S (S (length rest))))) / 4)
                   = 4 + 4 * (Z.of_nat (length rest) / 4)).
    { replace (Z.of_nat (S (S (S (S (length rest))))))
        with (Z.of_nat (length rest) + 1 * 4) by lia.
      rewrite Z.div_add by lia. lia. }
    rewrite Hlen in *.
    assert (Hq : 0 <= 4 * (Z.of_nat (length rest) / 4))
      by (Z.div_mod_to_equations; lia).
    cbn [words_at].
    change (replay f (EvWrite a [b0; b1; b2; b3] :: words_at (a + 4) rest))
      with (replay (jshFlashWrite f [b0; b1; b2; b3] a) (words_at (a + 4) rest)).
    rewrite IH; [|lia|].
    + rewrite (write_erased f [b0; b1; b2; b3] a x Hw)
        by (intros y Hy; apply Hff; cbn [length] in Hy; lia).
      cbn [length]. change (Z.of_nat 4) with 4.
      destruct (a + 4 <=? x) eqn:E1.
      * apply Z.leb_le in E1.
        replace (a <=? x) with true by (symmetry; apply Z.leb_le; lia).
        cbn [andb].
        replace (x <? a + 4) with false by (symmetry; apply Z.ltb_ge; lia).
        replace (x <? a + 4 + 4 * (Z.of_nat (length rest) / 4))
          with (x <? a + (4 + 4 * (Z.of_nat (length rest) / 4)))
          by (f_equal; lia).
        destruct (x <? a + (4 + 4 * (Z.of_nat (length rest) / 4))) eqn:E2;
          [|reflexivity].
        replace (Z.to_nat (x - a)) with (4 + Z.to_nat (x - (a + 4)))%nat by lia.
        reflexivity.
      * apply Z.leb_gt in E1. cbn [andb].
        destruct (a <=? x) eqn:E3; cbn [andb].
        -- apply Z.leb_le in E3.
           replace (x <? a + 4) with true by (symmetry; apply Z.ltb_lt; lia).
           replace (x <? a + (4 + 4 * (Z.of_nat (length rest) / 4))) with true
             by (symmetry; apply Z.ltb_lt; lia).
           assert (Hx : x - a = 0 \/ x - a = 1 \/ x - a = 2 \/ x - a = 3) by lia.
           destruct Hx as [->|[->|[->| ->]]]; reflexivity.
        -- reflexivity.
    + intros y Hy.
      rewrite (write_erased f [b0; b1; b2; b3] a y Hw)
        by (intros z Hz; apply Hff; cbn [length] in Hz; lia).
      cbn [length].
      replace (y <? a + Z.of_nat 4) with false by (symmetry; apply Z.ltb_ge; lia).
      rewrite andb_false_r. apply Hff. lia.
Qed.

(** ** The erasing part, page by page *)

Lemma erase_loop_steps :
  forall fuel pageStart pageLength w w',
    erase_loop fuel pageStart pageLength w = Some w' ->
    exists evs, steps w evs w' /\ flash_writes evs = [].
Proof.
  induction fuel as [|fuel IH]; intros ps pl w w' H; cbn [erase_loop] in H;
    destruct (u32 (ps + pl) <? FLASH_MAGIC_LOCATION);
    try discriminate;
    try (injection H as <-; exists []; split; [apply steps_refl | reflexivity]).
  destruct (jshFlashGetPage (u32 (ps + pl))) as [[ps' pl']|].
  - apply IH in H as (evs & Hs & Hw).
    exists ([EvPrint MsgDot] ++ [EvErase ps'] ++ evs). split; [|exact Hw].
    eapply steps_trans; [apply steps_print|].
    eapply steps_trans; [apply steps_erase | exact Hs].
  - injection H as <-. exists [EvPrint MsgDot].
    split; [apply steps_print | reflexivity].
Qed.

Lemma erase_saved_code_steps (fuel : nat) (w w' : world) :
  erase_saved_code fuel w = Some w' ->
  exists evs, steps w evs w' /\ flash_writes evs = [].
Proof.
  unfold erase_saved_code. intros H.
  destruct (jshFlashGetPage FLASH_SAVED_CODE_START) as [[ps pl]|].
  - apply erase_loop_steps in H as (evs & Hs & Hw).
    exists ([EvPrint MsgErasing] ++ [EvErase ps] ++ evs). split; [|exact Hw].
    eapply steps_trans; [apply steps_print|].
    eapply steps_trans; [apply steps_erase | exact Hs].
  - injection H as <-. exists [EvPrint MsgErasing].
    split; [apply steps_print | reflexivity].
Qed.

(** The pages erased from [pageStart + pageLength] on reach the magic
    word. *)
Lemma erase_loop_covers :
  page_ok -> region_paged -> 0 <= FLASH_SAVED_CODE_START ->
  forall fuel pageStart pageLength addr w w',
    jshFlashGetPage addr = Some (pageStart, pageLength) ->
    FLASH_SAVED_CODE_START <= addr ->
    erase_loop fuel pageStart pageLength w = Some w' ->
    exists evs,
      steps w evs w'
      /\ forall x, pageStart + pageLength <= x < FLASH_MAGIC_LOCATION ->
           exists a s l, jshFlashGetPage a = Some (s, l)
                         /\ s <= x < s + l /\ In (EvErase s) evs.
Proof.
  intros Hpage Hreg H0.
  induction fuel as [|fuel IH]; intros ps pl addr w w' Hg Ha H;
    destruct (Hpage _ _ _ Hg) as [Hin Hend];
    cbn [erase_loop] in H; rewrite u32_small in H by lia;
    destruct (ps + pl <? FLASH_MAGIC_LOCATION) eqn:E;
    try discriminate;
    try (apply Z.ltb_ge in E; injection H as <-; exists [];
         split; [apply steps_refl | intros x Hx; lia]).
  apply Z.ltb_lt in E.
  destruct (jshFlashGetPage (ps + pl)) as [[ps' pl']|] eqn:G.
  - destruct (Hpage _ _ _ G) as [Hin' Hend'].
    eapply IH in H as (evs & Hs & Hc); [|exact G|lia].
    exists ([EvPrint MsgDot] ++ [EvErase ps'] ++ evs). split.
    + eapply steps_trans; [apply steps_print|].
      eapply steps_trans; [apply steps_erase | exact Hs].
    + intros x Hx. destruct (Z.lt_ge_cases x (ps' + pl')) as [Hlt|Hge].
      * exists (ps + pl), ps', pl'. split; [exact G|]. split; [lia|].
        right. now left.
      * destruct (Hc x ltac:(lia)) as (a & s & l & Hga & Hr & Hi).
        exists a, s, l. split; [exact Hga|]. split; [exact Hr|].
        right. now right.
  - exfalso. apply (Hreg (ps + pl)); [lia | exact G].
Qed.

(** The flash after the loop, on a flash that keeps the laws. *)
Lemma erase_loop_erased :
  page_ok -> erase_law -> region_paged -> magic_in_page ->
  0 <= FLASH_SAVED_CODE_START ->
  forall fuel pageStart pageLength addr w w',
    jshFlashGetPage addr = Some (pageStart, pageLength) ->
    FLASH_SAVED_CODE_START <= addr ->
    erase_loop fuel pageStart pageLength w = Some w' ->
    (forall x, FLASH_SAVED_CODE_START <= x < pageStart + pageLength ->
               jshFlashReadByte (w_flash w) x = byte.of_Z 0xFF) ->
    forall x, FLASH_SAVED_CODE_START <= x < FLASH_MAGIC_LOCATION + 4 ->
              jshFlashReadByte (w_flash w') x = byte.of_Z 0xFF.
Proof.
  intros Hpage Herase Hreg Hmagic H0.
  induction fuel as [|fuel IH]; intros ps pl addr w w' Hg Ha H Hinv;
    destruct (Hpage _ _ _ Hg) as [Hin Hend];
    cbn [erase_loop] in H; rewrite u32_small in H by lia;
    destruct (ps + pl <? FLASH_MAGIC_LOCATION) eqn:E;
    try discriminate;
    try (apply Z.ltb_ge in E; injection H as <-; intros x Hx; apply Hinv;
         pose proof (Hmagic _ _ _ Hg E); lia).
  apply Z.ltb_lt in E.
  destruct (jshFlashGetPage (ps + pl)) as [[ps' pl']|] eqn:G.
  - destruct (Hpage _ _ _ G) as [Hin' Hend'].
    eapply IH; [exact G | lia | exact H|].
    intros x Hx. cbn [flash_erase jsiConsolePrint w_flash].
    rewrite (Herase _ _ _ _ _ G).
    destruct ((ps' <=? x) && (x <? ps' + pl')) eqn:Ex; [reflexivity|].
    apply Hinv. apply andb_false_iff in Ex as [Ex|Ex];
      [apply Z.leb_gt in Ex | apply Z.ltb_ge in Ex]; lia.
  - exfalso. apply (Hreg (ps + pl)); [lia | exact G].
Qed.

Lemma erase_saved_code_erased (fuel : nat) (w w' : world) :
  page_ok -> erase_law -> region_paged -> magic_in_page ->
  0 <= FLASH_SAVED_CODE_START < FLASH_MAGIC_LOCATION ->
  erase_saved_code fuel w = Some w' ->
  forall x, FLASH_SAVED_CODE_START <= x < FLASH_MAGIC_LOCATION + 4 ->
            jshFlashReadByte (w_flash w') x = byte.of_Z 0xFF.
Proof.
  intros Hpage Herase Hreg Hmagic H0 H. unfold erase_saved_code in H.
  destruct (jshFlashGetPage FLASH_SAVED_CODE_START) as [[ps pl]|] eqn:G.
  - destruct (Hpage _ _ _ G) as [Hin Hend].
    eapply erase_loop_erased; try eassumption; try lia.
    intros x Hx. cbn [flash_erase jsiConsolePrint w_flash].
    rewrite (Herase _ _ _ _ _ G).
    replace ((ps <=? x) && (x <? ps + pl)) with true; [reflexivity|].
    symmetry. apply andb_true_iff. split; [apply Z.leb_le | apply Z.ltb_lt]; lia.
  - exfalso. apply (Hreg FLASH_SAVED_CODE_START); [lia | exact G].
Qed.

(** ** The writing part, word by word *)

Lemma write_saved_code_steps (heap : list byte) (w : world) :
  exists e cb w' evs,
    write_saved_code heap w = (e, (cb, w'))
    /\ steps w evs w' /\ no_erase evs.
Proof.
  unfold write_saved_code. rewrite rle_encode_stream.
  match goal with
  | |- context [fold_left _ (enc (-1) heap) (?c, ?x)] =>
      destruct (run_writecb_steps (enc (-1) heap) c x)
        as (cbA & wA & evsA & HrA & HsA & HnA)
  end.
  unfold run_writecb in HrA. rewrite HrA. cbn [fst].
  destruct (run_writecb_steps [byte.of_Z 0; byte.of_Z 0; byte.of_Z 0] cbA wA)
    as (cbB & wB & evsB & HrB & HsB & HnB).
  cbn [run_writecb fold_left] in HrB. rewrite HrB.
  exists (cb1 cbA), cbB, wB, ([EvPrint MsgWriting] ++ evsA ++ evsB).
  split; [reflexivity|]. split.
  - eapply steps_trans; [apply steps_print|].
    eapply steps_trans; eassumption.
  - apply no_erase_app; [repeat constructor | now apply no_erase_app].
Qed.

Lemma write_saved_code_words (heap : list byte) (w : world) :
  0 <= FLASH_SAVED_CODE_START ->
  FLASH_SAVED_CODE_START mod 4 = 0 ->
  FLASH_SAVED_CODE_START + 4 + Z.of_nat (length (encode_bytes heap)) + 3
  <= FLASH_MAGIC_LOCATION ->
  FLASH_SAVED_CODE_START + 4 + Z.of_nat (length (encode_bytes heap)) + 3 < 2 ^ 32 ->
  exists cb w' evs,
    write_saved_code heap w
    = (FLASH_SAVED_CODE_START + 4 + Z.of_nat (length (encode_bytes heap)),
       (cb, w'))
    /\ steps w evs w'
    /\ no_erase evs
    /\ flash_writes evs
       = words_at (FLASH_SAVED_CODE_START + 4)
                  (encode_bytes heap
                   ++ [byte.of_Z 0; byte.of_Z 0; byte.of_Z 0])
    /\ cb0 cb = FLASH_MAGIC_LOCATION
    /\ cb1 cb = FLASH_SAVED_CODE_START + 4
                + Z.of_nat (length (encode_bytes heap)) + 3.
Proof.
  intros H0 Hal Hfit Hnw.
  destruct (write_saved_code_spec heap w H0 Hal Hnw)
    as (cb & w' & evs0 & Hspec & Hc0 & Hc1 & _ & _).
  exists cb, w'. rewrite Hspec.
  unfold write_saved_code in Hspec. rewrite rle_encode_stream in Hspec.
  rewrite <- encode_bytes_enc in Hspec.
  set (S := encode_bytes heap) in *.
  set (zeros := [byte.of_Z 0; byte.of_Z 0; byte.of_Z 0]).
  assert (Hstart : rleStart = FLASH_SAVED_CODE_START + 4)
    by (unfold rleStart; apply u32_small; lia).
  destruct (run_writecb_words (S ++ zeros) []
              {| cb0 := FLASH_MAGIC_LOCATION; cb1 := rleStart; cb2 := 0 |}
              (jsiConsolePrint MsgWriting w))
    as (cbB & wB & evs & Hrun & Hs & Hne & Hw & _ & _);
    cbn [cb0 cb1 cb2 length]; rewrite ?length_app, ?Hstart;
    cbn [length zeros];
    [lia | apply acc_holds_nil; change (2 ^ 32) with 4294967296; lia
     | rewrite <- Z.add_mod_idemp_l, Hal by lia; reflexivity
     | lia | lia | lia |].
  unfold run_writecb in Hrun. rewrite fold_left_app in Hrun.
  cbn [fold_left zeros] in Hrun.
  injection Hspec as _ Hspec. rewrite Hspec in Hrun.
  injection Hrun as <- <-.
  exists ([EvPrint MsgWriting] ++ evs).
  split; [reflexivity|].
  split; [eapply steps_trans; [apply steps_print | exact Hs]|].
  split; [apply no_erase_app; [repeat constructor | exact Hne]|].
  split; [|split; assumption].
  rewrite flash_writes_app, Hw. cbn [flash_writes filter is_write app].
  rewrite Hstart. cbn [length cb1]. f_equal. lia.
Qed.

(** ** The checking part *)

Lemma check_pass :
  forall bytes cb w,
    0 <= cb0 cb -> cb0 cb + Z.of_nat (length bytes) < 2 ^ 32 ->
    0 <= cb1 cb < 2 ^ 32 ->
    fold_left (fun s ch => jsfSaveToFlash_checkcb ch s) bytes (cb, w)
    = ({| cb0 := cb0 cb + Z.of_nat (length bytes);
          cb1 := u32 (cb1 cb
                      + Z.of_nat (mismatches (w_flash w) (cb0 cb) bytes));
          cb2 := cb2 cb |}, w).
Proof.
  induction bytes as [|b bytes IH]; intros cb w H0 Hnw H1.
  - cbn [fold_left length mismatches Z.of_nat].
    rewrite !Z.add_0_r, u32_small by assumption. now destruct cb.
  - cbn [fold_left length mismatches] in *. rewrite Nat2Z.inj_succ in Hnw.
    unfold jsfSaveToFlash_checkcb at 2.
    rewrite (u32_small (cb0 cb + 1)) by lia.
    destruct (byte.unsigned (jshFlashReadByte (w_flash w) (cb0 cb))
              =? byte.unsigned b); cbn [negb cb0 cb1 cb2];
      rewrite IH; cbn [cb0 cb1 cb2]; try lia; try apply u32_range.
    + f_equal. f_equal; lia.
    + f_equal. f_equal; try lia. unfold u32.
      rewrite Zplus_mod_idemp_l. f_equal. lia.
Qed.

Lemma mismatches_zero (f : flash) :
  forall bs a, mismatches f a bs = 0%nat <-> jshFlashRead f a (length bs) = bs.
Proof.
  induction bs as [|b bs IH]; intros a; [split; reflexivity|].
  cbn [mismatches length]. rewrite jshFlashRead_S.
  destruct (byte.unsigned (jshFlashReadByte f a) =? byte.unsigned b) eqn:E.
  - apply unsigned_eqb_iff in E. rewrite E. cbn [Nat.add].
    rewrite IH. split; [intros ->; reflexivity | intros [= H]; exact H].
  - split; [discriminate|]. intros [= H _].
    rewrite H, Z.eqb_refl in E. discriminate.
Qed.

Lemma mismatches_le (f : flash) :
  forall bs a, (mismatches f a bs <= length bs)%nat.
Proof.
  induction bs as [|b bs IH]; intros a; cbn [mismatches length]; [lia|].
  specialize (IH (a + 1)).
  destruct (byte.unsigned (jshFlashReadByte f a) =? byte.unsigned b); lia.
Qed.

(** X6 (checking). Called by [rle_encode] on the bytes of a heap from the
    address [addr], the checking callback leaves the flash and the trace
    alone and adds to the error count the number of bytes of the encoded
    heap that differ from the flash at the same place; the count stays as
    it was exactly when the flash holds the encoded heap at [addr]. *)
Theorem check_counts_differences (heap : list byte) (addr errors acc : Z)
        (w : world) :
  0 <= addr ->
  addr + Z.of_nat (length (encode_bytes heap)) < 2 ^ 32 ->
  0 <= errors ->
  errors + Z.of_nat (length (encode_bytes heap)) < 2 ^ 32 ->
  let n := mismatches (w_flash w) addr (encode_bytes heap) in
  rle_encode jsfSaveToFlash_checkcb heap
             ({| cb0 := addr; cb1 := errors; cb2 := acc |}, w)
  = ({| cb0 := addr + Z.of_nat (length (encode_bytes heap));
        cb1 := errors + Z.of_nat n;
        cb2 := acc |}, w)
  /\ (n = 0%nat <->
      jshFlashRead (w_flash w) addr (length (encode_bytes heap))
      = encode_bytes heap).
Proof.
  intros Ha Hnw He Hew n. split; [|apply mismatches_zero].
  rewrite rle_encode_stream, <- encode_bytes_enc.
  rewrite check_pass by (cbn [cb0 cb1]; lia). cbn [cb0 cb1 cb2 w_flash].
  fold n. rewrite u32_small; [reflexivity|].
  pose proof (mismatches_le (w_flash w) (encode_bytes heap) addr). fold n in H.
  lia.
Qed.

(** ** The flash after a save *)

Lemma flash_read_list (f : flash) :
  forall buf a,
    (forall i, (i < length buf)%nat ->
               jshFlashReadByte f (a + Z.of_nat i)
               = nth i buf (byte.of_Z 0xFF)) ->
    jshFlashRead f a (length buf) = buf.
Proof.
  induction buf as [|b buf IH]; intros a H; [reflexivity|].
  cbn [length]. rewrite jshFlashRead_S. f_equal.
  - specialize (H 0%nat ltac:(simpl; lia)). cbn [nth Z.of_nat] in H.
    now rewrite Z.add_0_r in H.
  - apply IH. intros i Hi. specialize (H (S i) ltac:(simpl; lia)).
    cbn [nth] in H. rewrite <- H. f_equal. lia.
Qed.

Lemma replay_outside :
  write_law ->
  forall evs f x,
    no_erase evs ->
    (forall e, In e evs -> ~ touches e x) ->
    jshFlashReadByte (replay f evs) x = jshFlashReadByte f x.
Proof.
  intros Hw. induction evs as [|e evs IH]; intros f x Hne Hout; [reflexivity|].
  inversion Hne as [|? ? He Hevs]; subst.
  change (replay f (e :: evs)) with (replay (apply_event f e) evs).
  rewrite IH; [|assumption|intros e' He'; apply Hout; now right].
  destruct e as [ps|a buf|m]; cbn [is_erase apply_event] in *;
    [discriminate| |reflexivity].
  rewrite Hw. specialize (Hout (EvWrite a buf) (or_introl eq_refl)).
  cbn [touches] in Hout.
  destruct ((a <=? x) && (x <? a + Z.of_nat (length buf))) eqn:E;
    [|reflexivity].
  apply andb_prop in E as [E1 E2]. apply Z.leb_le in E1. apply Z.ltb_lt in E2.
  lia.
Qed.

Lemma contains_code_iff (f : flash) :
  jsfFlashContainsCode f = true
  <-> le_word (jshFlashRead f FLASH_MAGIC_LOCATION 4) = u32 FLASH_MAGIC.
Proof.
  split; [apply jsfFlashContainsCode_true|].
  intros H. unfold jsfFlashContainsCode. rewrite H. apply Z.eqb_eq.
  unfold to_int, u32. now rewrite Z.mod_mod by lia.
Qed.

Lemma save_success_flash (fuel : nat) (heap : list byte) (w : world) :
  page_ok -> erase_law -> write_law -> region_paged -> magic_in_page ->
  0 <= FLASH_SAVED_CODE_START ->
  FLASH_SAVED_CODE_START mod 4 = 0 ->
  FLASH_SAVED_CODE_START + 4 + Z.of_nat (length (encode_bytes heap)) + 3
  < FLASH_MAGIC_LOCATION ->
  FLASH_MAGIC_LOCATION < 2 ^ 32 ->
  (Z.to_nat FLASH_MAGIC_LOCATION <= fuel)%nat ->
  exists w' evs,
    jsfSaveToFlash fuel heap w = Some w'
    /\ w_trace w' = w_trace w ++ evs ++ [EvPrint MsgDone]
    /\ jsfFlashContainsCode (w_flash w') = true
    /\ le_word (jshFlashRead (w_flash w') FLASH_SAVED_CODE_START 4)
       = FLASH_SAVED_CODE_START + 4 + Z.of_nat (length (encode_bytes heap))
    /\ jshFlashRead (w_flash w') (FLASH_SAVED_CODE_START + 4)
                    (length (encode_bytes heap))
       = encode_bytes heap.
Proof.
  intros Hpage Herase Hwrite Hreg Hmagic H0 Hal Hfit Hmax Hfuel.
  unfold jsfSaveToFlash.
  destruct (erase_saved_code_total fuel w Hpage Hfuel)
    as (wE & evsE & HE & HtE & _).
  rewrite HE.
  pose proof (erase_saved_code_erased fuel w wE Hpage Herase Hreg Hmagic
                ltac:(lia) HE) as Herased.
  destruct (write_saved_code_words heap wE H0 Hal ltac:(lia) ltac:(lia))
    as (cb & wW & evsW & -> & [HtW HfW] & HneW & HwW & Hc0 & Hc1).
  set (S := encode_bytes heap) in *.
  set (n := Z.of_nat (length S)) in *.
  set (T := S ++ [byte.of_Z 0; byte.of_Z 0; byte.of_Z 0]) in *.
  set (START := FLASH_SAVED_CODE_START) in *.
  set (MARKER := FLASH_MAGIC_LOCATION) in *.
  rewrite Hc0, Hc1, Z.geb_leb.
  replace (MARKER <=? START + 4 + n + 3) with false
    by (symmetry; apply Z.leb_gt; lia).
  assert (Hstart : rleStart = START + 4)
    by (unfold rleStart; apply u32_small; lia).
  (* the flash after the words of the payload *)
  assert (HlenT : Z.of_nat (length T) = n + 3)
    by (unfold T, n; rewrite length_app; cbn [length]; lia).
  assert (HL : n <= 4 * (Z.of_nat (length T) / 4) <= n + 3)
    by (rewrite HlenT; Z.div_mod_to_equations; lia).
  rewrite replay_no_erase, HwW in HfW by assumption.
  assert (HW : forall x,
             jshFlashReadByte (w_flash wW) x
             = if (START + 4 <=? x)
                  && (x <? START + 4 + 4 * (Z.of_nat (length T) / 4))
               then nth (Z.to_nat (x - (START + 4))) T (byte.of_Z 0xFF)
               else jshFlashReadByte (w_flash wE) x).
  { intros x. rewrite HfW.
    apply (replay_words Hwrite (length T)); [lia|].
    intros y Hy. apply Herased. lia. }
  (* the header and the magic word *)
  set (hdr := le_bytes (START + 4 + n)).
  set (magic := le_bytes (u32 FLASH_MAGIC)).
  set (f2 := jshFlashWrite (w_flash wW) hdr START).
  set (f3 := jshFlashWrite f2 magic MARKER).
  assert (H2 : forall x,
             jshFlashReadByte f2 x
             = if (START <=? x) && (x <? START + 4)
               then nth (Z.to_nat (x - START)) hdr (byte.of_Z 0xFF)
               else jshFlashReadByte (w_flash wW) x).
  { intros x. unfold f2. rewrite write_erased; [reflexivity | assumption|].
    intros y Hy. cbn [length hdr le_bytes] in Hy. rewrite HW.
    replace (START + 4 <=? y) with false by (symmetry; apply Z.leb_gt; lia).
    apply Herased. lia. }
  assert (H3 : forall x,
             jshFlashReadByte f3 x
             = if (MARKER <=? x) && (x <? MARKER + 4)
               then nth (Z.to_nat (x - MARKER)) magic (byte.of_Z 0xFF)
               else jshFlashReadByte f2 x).
  { intros x. unfold f3. rewrite write_erased; [reflexivity | assumption|].
    intros y Hy. cbn [length magic le_bytes] in Hy. rewrite H2, HW.
    replace (y <? START + 4) with false by (symmetry; apply Z.ltb_ge; lia).
    replace (y <? START + 4 + 4 * (Z.of_nat (length T) / 4)) with false
      by (symmetry; apply Z.ltb_ge; lia).
    rewrite !andb_false_r. apply Herased. lia. }
  assert (Hmag : jshFlashRead f3 MARKER 4 = magic).
  { apply (flash_read_list f3 magic). intros i Hi.
    cbn [length magic le_bytes] in Hi. rewrite H3.
    replace ((MARKER <=? MARKER + Z.of_nat i)
             && (MARKER + Z.of_nat i <? MARKER + 4)) with true
      by (symmetry; apply andb_true_iff;
          split; [apply Z.leb_le | apply Z.ltb_lt]; lia).
    f_equal. lia. }
  assert (Hhdr : jshFlashRead f3 START 4 = hdr).
  { apply (flash_read_list f3 hdr). intros i Hi.
    cbn [length hdr le_bytes] in Hi. rewrite H3, H2.
    replace (MARKER <=? START + Z.of_nat i) with false
      by (symmetry; apply Z.leb_gt; lia).
    replace ((START <=? START + Z.of_nat i)
             && (START + Z.of_nat i <? START + 4)) with true
      by (symmetry; apply andb_true_iff;
          split; [apply Z.leb_le | apply Z.ltb_lt]; lia).
    cbn [andb]. f_equal. lia. }
  assert (Hpay : jshFlashRead f3 (START + 4) (length S) = S).
  { apply (flash_read_list f3 S). intros i Hi. rewrite H3, H2, HW.
    replace (MARKER <=? START + 4 + Z.of_nat i) with false
      by (symmetry; apply Z.leb_gt; lia).
    replace (START + 4 + Z.of_nat i <? START + 4) with false
      by (symmetry; apply Z.ltb_ge; lia).
    replace ((START + 4 <=? START + 4 + Z.of_nat i)
             && (START + 4 + Z.of_nat i
                 <? START + 4 + 4 * (Z.of_nat (length T) / 4))) with true
      by (symmetry; apply andb_true_iff;
          split; [apply Z.leb_le | apply Z.ltb_lt]; lia).
    rewrite andb_false_r. cbn [andb].
    replace (Z.to_nat (START + 4 + Z.of_nat i - (START + 4))) with i by lia.
    unfold T. now rewrite app_nth1 by assumption. }
  assert (Hcode : jsfFlashContainsCode f3 = true).
  { apply contains_code_iff. fold MARKER. rewrite Hmag. unfold magic.
    apply le_word_le_bytes, u32_range. }
  (* the checking part *)
  rewrite rle_encode_stream, <- encode_bytes_enc. fold S.
  rewrite check_pass;
    cbn [cb0 cb1 cb2]; rewrite ?Hstart; fold n;
    [|lia|lia|change (2 ^ 32) with 4294967296; lia].
  unfold flash_write, jsiConsolePrint. cbn [w_flash w_trace].
  fold hdr magic f2 f3.
  replace (mismatches f3 (START + 4) S) with 0%nat
    by (symmetry; apply mismatches_zero; exact Hpay).
  rewrite Hcode. cbn [negb Z.of_nat]. rewrite Z.add_0_l.
  change (u32 0) with 0. cbn [Z.eqb negb w_trace w_flash].
  eexists. exists (evsE ++ evsW
                   ++ [EvPrint (MsgCompressed (u32 (Z.of_nat (length heap)))
                                              (u32 (START + 4 + n - START)));
                       EvWrite START hdr; EvWrite MARKER magic;
                       EvPrint MsgChecking]).
  split; [reflexivity|]. cbn [w_trace w_flash].
  split; [rewrite HtW, HtE; now rewrite <- !app_assoc|].
  split; [exact Hcode|]. split; [|exact Hpay].
  rewrite Hhdr. unfold hdr. apply le_word_le_bytes. lia.
Qed.

(** ** The phases of a save *)

Lemma word_write_filter (evs : list event) :
  no_erase evs -> Forall word_write (flash_writes evs) ->
  Forall word_write evs.
Proof.
  induction evs as [|e evs IH]; intros Hne Hw; [constructor|].
  inversion Hne as [|? ? He Hevs]; subst.
  destruct e; cbn [is_erase flash_writes filter is_write] in *;
    try discriminate.
  - inversion Hw; subst. constructor; auto.
  - constructor; [exact I | auto].
Qed.

Lemma run_writecb_aligned :
  forall bytes cb w, 0 <= cb1 cb < 2 ^ 32 ->
  exists cb' w' evs,
    run_writecb bytes (cb, w) = (cb', w')
    /\ steps w evs w'
    /\ Forall word_write evs
    /\ 0 <= cb1 cb' < 2 ^ 32.
Proof.
  induction bytes as [|b bytes IH]; intros cb w Hr.
  - exists cb, w, []. split; [reflexivity|].
    split; [apply steps_refl | split; [constructor | exact Hr]].
  - cbn [run_writecb fold_left].
    destruct (writecb_steps b cb w) as (w1 & evs1 & -> & Hs1 & Hne1 & Hw1).
    match goal with
    | |- context [fold_left _ bytes (?c, w1)] =>
        destruct (IH c w1) as (cb' & w' & evs2 & Hrun & Hs2 & Ha2 & Hr2);
          [cbn [cb1]; apply u32_range|]
    end.
    unfold run_writecb in Hrun. rewrite Hrun.
    exists cb', w', (evs1 ++ evs2). split; [reflexivity|].
    split; [eapply steps_trans; eassumption|]. split; [|exact Hr2].
    apply Forall_app. split; [|exact Ha2].
    apply word_write_filter; [exact Hne1|]. rewrite Hw1.
    destruct ((cb1 cb <? cb0 cb) && (Z.land (cb1 cb) 3 =? 3)); constructor;
      [|constructor].
    cbn [word_write le_bytes length]. split; [|reflexivity].
    rewrite land_word_mask by assumption.
    Z.div_mod_to_equations. lia.
Qed.

Lemma write_saved_code_aligned (heap : list byte) (w : world) :
  exists e cb w' evs,
    write_saved_code heap w = (e, (cb, w'))
    /\ steps w evs w' /\ Forall word_write evs.
Proof.
  unfold write_saved_code. rewrite rle_encode_stream.
  match goal with
  | |- context [fold_left _ (enc (-1) heap) (?c, ?x)] =>
      destruct (run_writecb_aligned (enc (-1) heap) c x)
        as (cbA & wA & evsA & HrA & HsA & HnA & HrngA);
        [cbn [cb1]; apply u32_range|]
  end.
  unfold run_writecb in HrA. rewrite HrA. cbn [fst].
  destruct (run_writecb_aligned [byte.of_Z 0; byte.of_Z 0; byte.of_Z 0]
                                cbA wA HrngA)
    as (cbB & wB & evsB & HrB & HsB & HnB & _).
  cbn [run_writecb fold_left] in HrB. rewrite HrB.
  exists (cb1 cbA), cbB, wB, ([EvPrint MsgWriting] ++ evsA ++ evsB).
  split; [reflexivity|]. split.
  - eapply steps_trans; [apply steps_print|].
    eapply steps_trans; eassumption.
  - apply Forall_app. split; [repeat constructor|].
    apply Forall_app. now split.
Qed.

Lemma word_write_no_erase (evs : list event) :
  Forall word_write evs -> no_erase evs.
Proof.
  intros H. eapply Forall_impl; [|exact H].
  intros [ps|a buf|m] He; cbn in *; [contradiction | reflexivity..].
Qed.

(** Building the events of nested prints and writes. *)
Ltac peel_steps :=
  repeat first
    [ apply steps_refl
    | eapply steps_trans; [|apply steps_print]
    | eapply steps_trans; [|apply steps_write] ].

Lemma jsfSaveToFlash_phases (fuel : nat) (heap : list byte) (w w' : world) :
  jsfSaveToFlash fuel heap w = Some w' ->
  exists wE e cb wW evsE evsW evsR,
    erase_saved_code fuel w = Some wE
    /\ write_saved_code heap wE = (e, (cb, wW))
    /\ steps w evsE wE
    /\ flash_writes evsE = []
    /\ steps wE evsW wW
    /\ Forall word_write evsW
    /\ steps wW evsR w'
    /\ no_erase evsR
    /\ ((cb0 cb <= cb1 cb /\ flash_writes evsR = [])
        \/ (cb1 cb < cb0 cb
            /\ flash_writes evsR
               = [EvWrite FLASH_SAVED_CODE_START (le_bytes e);
                  EvWrite FLASH_MAGIC_LOCATION (le_bytes (u32 FLASH_MAGIC))])).
Proof.
  unfold jsfSaveToFlash. intros H.
  destruct (erase_saved_code fuel w) as [wE|] eqn:HE; [|discriminate].
  destruct (erase_saved_code_steps fuel w wE HE) as (evsE & HsE & HwE).
  destruct (write_saved_code_aligned heap wE)
    as (e & cb & wW & evsW & HW & HsW & HaW).
  rewrite HW in H.
  exists wE, e, cb, wW, evsE, evsW.
  rewrite Z.geb_leb in H.
  destruct (cb0 cb <=? cb1 cb) eqn:Hcmp.
  - apply Z.leb_le in Hcmp. injection H as <-.
    eexists. split; [reflexivity|]. split; [exact HW|].
    split; [exact HsE|]. split; [exact HwE|]. split; [exact HsW|].
    split; [exact HaW|]. split; [peel_steps|].
    split; [repeat constructor|]. left. split; [exact Hcmp | reflexivity].
  - apply Z.leb_gt in Hcmp. rewrite rle_encode_stream in H.
    match type of H with
    | context [fold_left ?f ?l (?c, ?x)] =>
        pose proof (checkcb_world l c x) as Hck;
        destruct (fold_left f l (c, x)) as [cbC wC]
    end.
    cbn [snd] in Hck. subst wC.
    match type of H with
    | context [jsfFlashContainsCode ?f] => destruct (jsfFlashContainsCode f)
    end; cbn [negb] in H;
      match type of H with
      | context [negb (?x =? 0)] => destruct (negb (x =? 0))
      end; injection H as <-;
      (eexists; split; [reflexivity|]; split; [exact HW|];
       split; [exact HsE|]; split; [exact HwE|]; split; [exact HsW|];
       split; [exact HaW|]; split; [peel_steps|];
       split; [repeat constructor|];
       right; split; [exact Hcmp | reflexivity]).
Qed.

(** X7 (save). Whenever [jsfSaveToFlash] returns, what it did to the
    flash is first erases (and no write), then writes (and no erase):
    nothing is erased after the first byte was written.  The flash it
    leaves is the one these events give. *)
Theorem save_erases_then_writes (fuel : nat) (heap : list byte)
        (w w' : world) :
  jsfSaveToFlash fuel heap w = Some w' ->
  exists evsE evsW,
    w_trace w' = w_trace w ++ evsE ++ evsW
    /\ flash_writes evsE = []
    /\ no_erase evsW
    /\ w_flash w' = replay (w_flash w) (evsE ++ evsW).
Proof.
  intros H.
  destruct (jsfSaveToFlash_phases fuel heap w w' H)
    as (wE & e & cb & wW & evsE & evsW & evsR
        & _ & _ & HsE & HwE & HsW & HaW & HsR & HnR & _).
  exists evsE, (evsW ++ evsR).
  pose proof (steps_trans _ _ _ _ _ HsE (steps_trans _ _ _ _ _ HsW HsR))
    as [Ht Hf].
  split; [exact Ht|]. split; [exact HwE|]. split; [|exact Hf].
  apply no_erase_app; [now apply word_write_no_erase | exact HnR].
Qed.

(** X8 (save). With the region and the magic word on word boundaries,
    every write [jsfSaveToFlash] makes is a write of four bytes at a word
    address. *)
Theorem save_writes_whole_words (fuel : nat) (heap : list byte)
        (w w' : world) :
  FLASH_SAVED_CODE_START mod 4 = 0 ->
  FLASH_MAGIC_LOCATION mod 4 = 0 ->
  jsfSaveToFlash fuel heap w = Some w' ->
  exists evs,
    w_trace w' = w_trace w ++ evs
    /\ forall a buf, In (EvWrite a buf) evs ->
         a mod 4 = 0 /\ length buf = 4%nat.
Proof.
  intros Hs Hm H.
  destruct (jsfSaveToFlash_phases fuel heap w w' H)
    as (wE & e & cb & wW & evsE & evsW & evsR
        & _ & _ & HsE & HwE & HsW & HaW & HsR & HnR & HwR).
  exists (evsE ++ evsW ++ evsR).
  pose proof (steps_trans _ _ _ _ _ HsE (steps_trans _ _ _ _ _ HsW HsR))
    as [Ht _].
  split; [exact Ht|]. intros a buf Hin.
  assert (Hw : In (EvWrite a buf) (flash_writes (evsE ++ evsW ++ evsR))).
  { apply filter_In. now split. }
  rewrite !flash_writes_app, HwE in Hw. cbn [app] in Hw.
  apply in_app_or in Hw as [Hw|Hw].
  - apply filter_In in Hw as [Hw _].
    rewrite Forall_forall in HaW. exact (HaW _ Hw).
  - destruct HwR as [[_ HwR]|[_ HwR]]; rewrite HwR in Hw;
      [contradiction|].
    destruct Hw as [[= <- <-]|[[= <- <-]|[]]]; now split.
Qed.

Lemma erase_saved_code_covers (fuel : nat) (w w' : world) :
  page_ok -> region_paged -> 0 <= FLASH_SAVED_CODE_START ->
  erase_saved_code fuel w = Some w' ->
  exists evs,
    steps w evs w'
    /\ forall x, FLASH_SAVED_CODE_START <= x < FLASH_MAGIC_LOCATION ->
         exists a s l, jshFlashGetPage a = Some (s, l)
                       /\ s <= x < s + l /\ In (EvErase s) evs.
Proof.
  intros Hpage Hreg H0 H. unfold erase_saved_code in H.
  destruct (jshFlashGetPage FLASH_SAVED_CODE_START) as [[ps pl]|] eqn:G.
  - destruct (Hpage _ _ _ G) as [Hin Hend].
    destruct (erase_loop_covers Hpage Hreg H0 fuel ps pl
                FLASH_SAVED_CODE_START _ _ G ltac:(lia) H) as (evs & Hs & Hc).
    exists ([EvPrint MsgErasing] ++ [EvErase ps] ++ evs). split.
    + eapply steps_trans; [apply steps_print|].
      eapply steps_trans; [apply steps_erase | exact Hs].
    + intros x Hx. destruct (Z.lt_ge_cases x (ps + pl)) as [Hlt|Hge].
      * exists FLASH_SAVED_CODE_START, ps, pl. split; [exact G|].
        split; [lia|]. right. now left.
      * destruct (Hc x ltac:(lia)) as (a & s & l & Hga & Hr & Hi).
        exists a, s, l. split; [exact Hga|]. split; [exact Hr|].
        right. now right.
  - injection H as <-. exists [EvPrint MsgErasing].
    split; [apply steps_print|]. intros x Hx. exfalso.
    apply (Hreg FLASH_SAVED_CODE_START); [lia | exact G].
Qed.

(** X9 (save). When every address of the region is in a page, every byte
    from [FLASH_SAVED_CODE_START] up to [FLASH_MAGIC_LOCATION] is in a
    page that [jsfSaveToFlash] erased. *)
Theorem save_erases_region (fuel : nat) (heap : list byte) (w w' : world) :
  page_ok -> region_paged -> 0 <= FLASH_SAVED_CODE_START ->
  jsfSaveToFlash fuel heap w = Some w' ->
  forall x, FLASH_SAVED_CODE_START <= x < FLASH_MAGIC_LOCATION ->
    exists a s l, jshFlashGetPage a = Some (s, l)
                  /\ s <= x < s + l /\ In (EvErase s) (w_trace w').
Proof.
  intros Hpage Hreg H0 H x Hx.
  destruct (jsfSaveToFlash_phases fuel heap w w' H)
    as (wE & e & cb & wW & evsE & evsW & evsR
        & HE & _ & HsE & _ & HsW & _ & HsR & _).
  destruct (erase_saved_code_covers fuel w wE Hpage Hreg H0 HE)
    as (evs & Hs & Hc).
  rewrite (steps_inj _ _ _ _ Hs HsE) in Hc.
  destruct (Hc x Hx) as (a & s & l & Hg & Hr & Hi).
  exists a, s, l. split; [exact Hg|]. split; [exact Hr|].
  pose proof (steps_trans _ _ _ _ _ HsE (steps_trans _ _ _ _ _ HsW HsR))
    as [Ht _].
  rewrite Ht. apply in_or_app. right. apply in_or_app. now left.
Qed.

(** X10 (save). A save that fits writes the bytes [rle_encode] pushed,
    followed by three zero bytes, four at a time and in their order, to
    the word addresses from [FLASH_SAVED_CODE_START + 4] on (what is left
    over after the last whole word is not written); after them the
    address of the end of the data to [FLASH_SAVED_CODE_START]; and last
    the magic word.  It makes no other write. *)
Theorem save_writes_stream_header_magic (fuel : nat) (heap : list byte)
        (w : world) :
  page_ok ->
  0 <= FLASH_SAVED_CODE_START ->
  FLASH_SAVED_CODE_START mod 4 = 0 ->
  FLASH_SAVED_CODE_START + 4 + Z.of_nat (length (encode_bytes heap)) + 3
  < FLASH_MAGIC_LOCATION ->
  FLASH_MAGIC_LOCATION < 2 ^ 32 ->
  (Z.to_nat FLASH_MAGIC_LOCATION <= fuel)%nat ->
  exists w' evs,
    jsfSaveToFlash fuel heap w = Some w'
    /\ w_trace w' = w_trace w ++ evs
    /\ flash_writes evs
       = words_at (FLASH_SAVED_CODE_START + 4)
                  (encode_bytes heap
                   ++ [byte.of_Z 0; byte.of_Z 0; byte.of_Z 0])
         ++ [EvWrite FLASH_SAVED_CODE_START
                     (le_bytes (FLASH_SAVED_CODE_START + 4
                                + Z.of_nat (length (encode_bytes heap))));
             EvWrite FLASH_MAGIC_LOCATION (le_bytes (u32 FLASH_MAGIC))].
Proof.
  intros Hpage H0 Hal Hfit Hmax Hfuel.
  destruct (jsfSaveToFlash_spec fuel heap w Hpage H0 Hal ltac:(lia) Hfuel)
    as (w' & _ & Hsave & _).
  destruct (jsfSaveToFlash_phases fuel heap w w' Hsave)
    as (wE & e & cb & wW & evsE & evsW & evsR
        & HE & HW & HsE & HwE & HsW & HaW & HsR & HnR & HwR).
  destruct (write_saved_code_words heap wE H0 Hal ltac:(lia) ltac:(lia))
    as (cb' & wW' & evsW' & HW' & HsW' & _ & Hwords & Hc0 & Hc1).
  rewrite HW in HW'. injection HW' as -> <- <-.
  rewrite (steps_inj _ _ _ _ HsW HsW') in *.
  exists w', (evsE ++ evsW' ++ evsR).
  pose proof (steps_trans _ _ _ _ _ HsE (steps_trans _ _ _ _ _ HsW' HsR))
    as [Ht _].
  split; [exact Hsave|]. split; [exact Ht|].
  rewrite !flash_writes_app, HwE, Hwords. cbn [app]. f_equal.
  destruct HwR as [[Hle _]|[_ HwR]]; [lia | exact HwR].
Qed.

(** ** Loading *)

Lemma load_decodes (fuel : nat) (basePtr : Z) (w : world) :
  jsfFlashContainsCode (w_flash w) = true ->
  0 <= FLASH_SAVED_CODE_START < 2 ^ 32 - 4 ->
  let endOfData := le_word (jshFlashRead (w_flash w) FLASH_SAVED_CODE_START 4) in
  jsfLoadFromFlash fuel basePtr w
  = option_map
      (fun r => (jsiConsolePrint
                   (MsgLoading (u32 (endOfData - FLASH_SAVED_CODE_START))) w,
                 snd r))
      (rle_decode_loop pull_byte fuel (-256)
         (jshFlashRead (w_flash w) (FLASH_SAVED_CODE_START + 4)
                       (Z.to_nat (endOfData - (FLASH_SAVED_CODE_START + 4))))
         {| d_ptr := basePtr; d_stores := [] |}).
Proof.
  intros Hmagic Hstart endOfData.
  unfold jsfLoadFromFlash. rewrite Hmagic. cbn [negb].
  fold endOfData. unfold rle_decode. cbn [w_flash jsiConsolePrint].
  set (cb := {| cb0 := endOfData;
                cb1 := u32 (FLASH_SAVED_CODE_START + 4); cb2 := 0 |}).
  set (d0 := {| d_ptr := basePtr; d_stores := [] |}).
  pose proof (le_word_4_range (w_flash w) FLASH_SAVED_CODE_START) as Hend.
  fold endOfData in Hend.
  pose proof (decode_readcb (w_flash w) fuel (-256) cb d0) as Hdec.
  unfold flash_stream in Hdec. cbn [cb cb0 cb1] in Hdec.
  rewrite u32_small in Hdec by lia.
  specialize (Hdec ltac:(lia) ltac:(lia)).
  destruct (rle_decode_loop (jsfLoadFromFlash_readcb (w_flash w))
                            fuel (-256) cb d0) as [[cb' d']|];
    destruct (rle_decode_loop pull_byte fuel (-256) _ d0) as [[s' d'']|];
    cbn [option_map snd] in *; try discriminate; [|reflexivity].
  injection Hdec as ->. reflexivity.
Qed.

(** X11 (load). With the magic word there, [jsfLoadFromFlash] returns
    whatever else the flash holds, once it is given one iteration more
    than there are bytes between [FLASH_SAVED_CODE_START + 4] and the end
    address of the header; its stores go to consecutive addresses from
    the heap pointer, and there are at most 128 of them for each of those
    bytes. *)
Theorem load_any_flash (fuel : nat) (basePtr : Z) (w : world) :
  let endOfData := le_word (jshFlashRead (w_flash w) FLASH_SAVED_CODE_START 4) in
  let len := Z.to_nat (endOfData - (FLASH_SAVED_CODE_START + 4)) in
  jsfFlashContainsCode (w_flash w) = true ->
  0 <= FLASH_SAVED_CODE_START < 2 ^ 32 - 4 ->
  (len < fuel)%nat ->
  exists out,
    jsfLoadFromFlash fuel basePtr w
    = Some (jsiConsolePrint
              (MsgLoading (u32 (endOfData - FLASH_SAVED_CODE_START))) w,
            {| d_ptr := basePtr + Z.of_nat (length out);
               d_stores := bytes_at basePtr out |})
    /\ (length out <= 128 * len)%nat.
Proof.
  intros endOfData len Hmagic Hstart Hfuel.
  rewrite load_decodes by assumption. fold endOfData. fold len.
  set (s := jshFlashRead (w_flash w) (FLASH_SAVED_CODE_START + 4) len).
  assert (Hlen : length s = len)
    by (unfold s, jshFlashRead; now rewrite length_map, length_seq).
  destruct (decode_any (length s) s (le_n _) (-256)
                       {| d_ptr := basePtr; d_stores := [] |}
                       (fuel - S len)) as (out & Hd & Hl).
  replace (S (length s) + (fuel - S len))%nat with fuel in Hd by lia.
  exists out. rewrite Hd, fold_store. cbn [option_map snd d_ptr d_stores app].
  split; [reflexivity | lia].
Qed.

Lemma erase_loop_reported :
  forall fuel pageStart pageLength w w',
    erase_loop fuel pageStart pageLength w = Some w' ->
    exists evs,
      steps w evs w'
      /\ forall s, In (EvErase s) evs ->
           exists a l, jshFlashGetPage a = Some (s, l).
Proof.
  induction fuel as [|fuel IH]; intros ps pl w w' H; cbn [erase_loop] in H;
    destruct (u32 (ps + pl) <? FLASH_MAGIC_LOCATION);
    try discriminate;
    try (injection H as <-; exists []; split;
         [apply steps_refl | intros s []]).
  destruct (jshFlashGetPage (u32 (ps + pl))) as [[ps' pl']|] eqn:G.
  - apply IH in H as (evs & Hs & Hr).
    exists ([EvPrint MsgDot] ++ [EvErase ps'] ++ evs). split.
    + eapply steps_trans; [apply steps_print|].
      eapply steps_trans; [apply steps_erase | exact Hs].
    + intros s [Hin|[Hin|Hin]]; [discriminate| |now apply Hr].
      injection Hin as <-. now exists (u32 (ps + pl)), pl'.
  - injection H as <-. exists [EvPrint MsgDot].
    split; [apply steps_print|]. intros s [Hin|[]]. discriminate.
Qed.

(** X12 (save). With a well-formed page table the erasing part of
    [jsfSaveToFlash] ends within [FLASH_MAGIC_LOCATION] iterations of its
    loop; it writes nothing, and it erases only at page starts that
    [jshFlashGetPage] reported. *)
Theorem erasing_ends (fuel : nat) (w : world) :
  page_ok -> (Z.to_nat FLASH_MAGIC_LOCATION <= fuel)%nat ->
  exists w' evs,
    erase_saved_code fuel w = Some w'
    /\ steps w evs w'
    /\ flash_writes evs = []
    /\ forall s, In (EvErase s) evs ->
         exists a l, jshFlashGetPage a = Some (s, l).
Proof.
  intros Hpage Hfuel.
  destruct (erase_saved_code_total fuel w Hpage Hfuel) as (w' & _ & HE & _).
  exists w'. destruct (erase_saved_code_steps fuel w w' HE) as (evs & Hs & Hw).
  exists evs. split; [exact HE|]. split; [exact Hs|]. split; [exact Hw|].
  unfold erase_saved_code in HE.
  destruct (jshFlashGetPage FLASH_SAVED_CODE_START) as [[ps pl]|] eqn:G.
  - destruct (erase_loop_reported fuel ps pl _ _ HE) as (evs' & Hs' & Hr).
    pose proof (steps_trans _ _ _ _ _
                  (steps_trans _ _ _ _ _
                     (steps_print MsgErasing w)
                     (steps_erase ps (jsiConsolePrint MsgErasing w))) Hs')
      as Hall.
    rewrite (steps_inj _ _ _ _ Hs Hall).
    intros s [Hin|[Hin|Hin]]; [discriminate| |now apply Hr].
    injection Hin as <-. now exists FLASH_SAVED_CODE_START, pl.
  - injection HE as <-.
    rewrite (steps_inj _ _ _ _ Hs (steps_print MsgErasing w)).
    intros s [Hin|[]]. discriminate.
Qed.

(** ** Saving and loading on a flash that keeps the laws *)



Lemma no_writes_no_touch (evs : list event) (x : Z) :
  flash_writes evs = [] -> forall e, In e evs -> ~ touches e x.
Proof.
  intros H e Hin Ht. destruct e as [ps|a buf|m]; cbn in Ht; try contradiction.
  assert (Hw : In (EvWrite a buf) (flash_writes evs))
    by (apply filter_In; now split).
  now rewrite H in Hw.
Qed.


End FlashExtra.

(** ** The small board keeps the laws *)

Lemma sim_write_law : @write_law sim.
Proof. intros f buf addr x. reflexivity. Qed.

Lemma sim_erase_law : @erase_law sim.
Proof.
  intros f addr ps pl x. cbn [jshFlashGetPage jshFlashErasePage
                              jshFlashReadByte sim].
  unfold sim_get_page. intros Hg.
  destruct ((0 <=? addr) && (addr <? 64)) eqn:E; [|discriminate].
  apply andb_prop in E as [E1 E2]. apply Z.leb_le in E1. apply Z.ltb_lt in E2.
  assert (ps = 16 * (addr / 16) /\ pl = 16) as [Hps ->] by (split; congruence).
  unfold sim_erase, sim_get_page.
  replace ((0 <=? ps) && (ps <? 64)) with true
    by (symmetry; apply andb_true_iff;
        split; [apply Z.leb_le | apply Z.ltb_lt];
        subst ps; Z.div_mod_to_equations; lia).
  replace (16 * (ps / 16)) with ps
    by (subst ps; Z.div_mod_to_equations; lia).
  reflexivity.
Qed.

Lemma sim_region_paged : @region_paged sim.
Proof.
  intros addr. cbn [FLASH_SAVED_CODE_START FLASH_MAGIC_LOCATION
                    jshFlashGetPage sim].
  intros Ha. unfold sim_get_page.
  replace ((0 <=? addr) && (addr <? 64)) with true; [discriminate|].
  symmetry. apply andb_true_iff. split; [apply Z.leb_le | apply Z.ltb_lt]; lia.
Qed.

Lemma sim_magic_in_page : @magic_in_page sim.
Proof.
  intros addr ps pl. cbn [FLASH_MAGIC_LOCATION jshFlashGetPage sim].
  unfold sim_get_page.
  destruct ((0 <=? addr) && (addr <? 64)); [|discriminate].
  intros Hg. assert (ps = 16 * (addr / 16) /\ pl = 16) as [-> ->]
    by (split; congruence).
  Z.div_mod_to_equations. lia.
Qed.

(** ** The further properties on the small board *)

Lemma rle_encode_injective_witness :
  map byte.of_Z [7; 7; 7] = map byte.of_Z [7; 7; 7].
Proof. apply rle_encode_injective. reflexivity. Defined.

Lemma check_counts_differences_witness :
  rle_encode jsfSaveToFlash_checkcb example_heap
             ({| cb0 := 20; cb1 := 0; cb2 := 0 |}, sim_saved)
  = ({| cb0 := 24; cb1 := 0; cb2 := 0 |}, sim_saved).
Proof.
  apply (proj1 (@check_counts_differences sim example_heap 20 0 0 sim_saved
                  ltac:(lia) ltac:(vm_compute; reflexivity)
                  ltac:(lia) ltac:(vm_compute; reflexivity))).
Defined.

Lemma sim_saved_eq : jsfSaveToFlash 44 example_heap sim_blank = Some sim_saved.
Proof. vm_compute. reflexivity. Qed.

Lemma save_erases_then_writes_witness :
  exists evsE evsW,
    w_trace sim_saved = evsE ++ evsW
    /\ flash_writes evsE = []
    /\ no_erase evsW.
Proof.
  destruct (@save_erases_then_writes sim 44 example_heap sim_blank sim_saved
              sim_saved_eq) as (evsE & evsW & Ht & Hw & Hn & _).
  exists evsE, evsW. repeat split; assumption.
Defined.

Lemma save_writes_whole_words_witness :
  exists evs,
    w_trace sim_saved = w_trace sim_blank ++ evs
    /\ forall a buf, In (EvWrite a buf) evs ->
         a mod 4 = 0 /\ length buf = 4%nat.
Proof.
  exact (@save_writes_whole_words sim 44 example_heap sim_blank sim_saved
           eq_refl eq_refl sim_saved_eq).
Defined.

Lemma save_erases_region_witness :
  exists a s l, sim_get_page a = Some (s, l)
                /\ s <= 43 < s + l /\ In (EvErase s) (w_trace sim_saved).
Proof.
  apply (@save_erases_region sim 44 example_heap sim_blank sim_saved
           sim_page_ok sim_region_paged ltac:(vm_compute; discriminate)
           sim_saved_eq 43 ltac:(vm_compute; split; [discriminate|reflexivity])).
Defined.

Lemma save_writes_stream_header_magic_witness :
  exists w' evs,
    jsfSaveToFlash 44 example_heap sim_blank = Some w'
    /\ w_trace w' = evs
    /\ flash_writes evs
       = [EvWrite 20 (map byte.of_Z [0x41; 0x41; 0x03; 0x42]);
          EvWrite 16 (le_bytes 24);
          EvWrite 44 (le_bytes 0xDEADBEEF)].
Proof.
  apply (@save_writes_stream_header_magic sim 44 example_heap sim_blank
           sim_page_ok ltac:(vm_compute; discriminate) eq_refl
           eq_refl eq_refl ltac:(vm_compute; lia)).
Defined.

Lemma load_any_flash_witness :
  exists out,
    jsfLoadFromFlash 10 1000 sim_corrupt
    = Some (jsiConsolePrint (MsgLoading 7) sim_corrupt,
            {| d_ptr := 1000 + Z.of_nat (length out);
               d_stores := bytes_at 1000 out |})
    /\ (length out <= 128 * 3)%nat.
Proof.
  apply (@load_any_flash sim 10 1000 sim_corrupt eq_refl
           ltac:(vm_compute; split; [discriminate | reflexivity])
           ltac:(vm_compute; lia)).
Defined.




Lemma erasing_ends_witness :
  exists w' evs,
    erase_saved_code 44 sim_corrupt = Some w'
    /\ steps sim_corrupt evs w'
    /\ flash_writes evs = []
    /\ forall s, In (EvErase s) evs ->
         exists a l, sim_get_page a = Some (s, l).
Proof.
  apply (@erasing_ends sim 44 sim_corrupt sim_page_ok ltac:(vm_compute; lia)).
Defined.

(** * Properties of the file save and load paths *)

Lemma fold_writecb_file l : forall acc,
  fold_left (fun s ch => Linux.jsfSaveToFlash_writecb ch s) l acc = acc ++ l.
Proof.
  induction l as [|x l IH]; intros acc; simpl.
  - now rewrite app_nil_r.
  - rewrite IH. unfold Linux.jsfSaveToFlash_writecb. now rewrite <- app_assoc.
Qed.

Lemma saved_file (sizeof_JsVar : Z) (ram : list byte) (h : Linux.host) :
  Linux.h_writable h = true ->
  Linux.h_file (Linux.jsfSaveToFlash sizeof_JsVar ram h)
  = Some (le_bytes (u32 (Linux.h_memTotal h))
          ++ encode_bytes
               (firstn (Z.to_nat (u32 (Linux.h_memTotal h) * sizeof_JsVar)) ram)).
Proof.
  intros Hw. unfold Linux.jsfSaveToFlash. rewrite Hw.
  cbn [Linux.print Linux.set_file Linux.h_file].
  rewrite rle_encode_stream, fold_writecb_file, encode_bytes_enc. reflexivity.
Qed.

(** X16 (file). When the file can be opened for writing, loading after
    saving sets the number of variables to what it was and stores exactly
    the [jsVarCount*sizeof(JsVar)] bytes that were saved, in their order,
    from the heap pointer on; and [jsfFlashContainsCode] is true after the
    save. *)
Theorem file_save_load_round_trip (sizeof_JsVar : Z) (ram : list byte)
        (h : Linux.host) (basePtr : Z) (fuel : nat) :
  let jsVarCount := Linux.h_memTotal h in
  let heap := firstn (Z.to_nat (jsVarCount * sizeof_JsVar)) ram in
  let h' := Linux.jsfSaveToFlash sizeof_JsVar ram h in
  Linux.h_writable h = true ->
  0 <= jsVarCount < 2 ^ 32 ->
  (length (encode_bytes heap) < fuel)%nat ->
  Linux.jsfFlashContainsCode h' = true
  /\ exists h'',
      Linux.jsfLoadFromFlash sizeof_JsVar fuel basePtr h'
      = Some (h'', {| d_ptr := basePtr + Z.of_nat (length heap);
                      d_stores := bytes_at basePtr heap |})
      /\ Linux.h_memTotal h'' = jsVarCount.
Proof.
  intros jsVarCount heap h' Hw Hr Hfuel.
  pose proof (saved_file sizeof_JsVar ram h Hw) as Hfile.
  fold h' in Hfile. fold jsVarCount in Hfile.
  rewrite (u32_small _ Hr) in Hfile. fold heap in Hfile.
  split; [unfold Linux.jsfFlashContainsCode; now rewrite Hfile|].
  unfold Linux.jsfLoadFromFlash. rewrite Hfile.
  replace (length (le_bytes jsVarCount ++ encode_bytes heap) <? 4)%nat
    with false
    by (symmetry; apply Nat.ltb_ge; rewrite length_app; simpl; lia).
  change (firstn 4 (le_bytes jsVarCount ++ encode_bytes heap))
    with (le_bytes jsVarCount).
  change (skipn 4 (le_bytes jsVarCount ++ encode_bytes heap))
    with (encode_bytes heap).
  rewrite le_word_le_bytes by assumption.
  unfold rle_decode. rewrite encode_bytes_enc in *.
  replace fuel
    with (S (length (enc (-1) heap)) + (fuel - S (length (enc (-1) heap))))%nat
    by lia.
  change Linux.jsfLoadFromFlash_readcb with pull_byte.
  rewrite (decode_enc (length heap)) by (auto; lia).
  rewrite fold_store. cbn [d_ptr d_stores app].
  eexists. split; reflexivity.
Qed.

(** X17 (file). The file a save writes has four bytes more than
    [rle_encode] pushes: never more than four bytes and one and a half
    times the bytes of the heap. *)
Theorem saved_file_size (sizeof_JsVar : Z) (ram : list byte) (h : Linux.host) :
  Linux.h_writable h = true ->
  let heap :=
    firstn (Z.to_nat (u32 (Linux.h_memTotal h) * sizeof_JsVar)) ram in
  exists f,
    Linux.h_file (Linux.jsfSaveToFlash sizeof_JsVar ram h) = Some f
    /\ length f = (4 + length (encode_bytes heap))%nat
    /\ (length f <= 4 + length heap + length heap / 2)%nat.
Proof.
  intros Hw heap. eexists. split; [now apply saved_file|].
  fold heap. rewrite length_app. cbn [le_bytes length]. split; [reflexivity|].
  rewrite encode_bytes_enc.
  destruct (enc_length_bound (length heap) heap (-1)) as [_ H]; [lia|].
  assert (Hb : (2 * length (enc (-1) heap) <= 3 * length heap)%nat).
  { apply H. intros c _. pose proof (byte.unsigned_range c). lia. }
  pose proof (Nat.div_mod_eq (length heap) 2) as Hd.
  pose proof (Nat.mod_upper_bound (length heap) 2).
  generalize dependent (length (enc (-1) heap)).
  generalize dependent (length heap / 2)%nat.
  generalize dependent (length heap mod 2)%nat.
  intros. lia.
Qed.

Lemma file_save_load_round_trip_witness :
  Linux.jsfFlashContainsCode (Linux.jsfSaveToFlash 3 example_heap Linux.host0) = true
  /\ exists h'',
      Linux.jsfLoadFromFlash 3 10 1000
                             (Linux.jsfSaveToFlash 3 example_heap Linux.host0)
      = Some (h'', {| d_ptr := 1006;
                      d_stores := bytes_at 1000 example_heap |})
      /\ Linux.h_memTotal h'' = 2.
Proof.
  apply (file_save_load_round_trip 3 example_heap Linux.host0 1000 10 eq_refl
           ltac:(vm_compute; split; [discriminate | reflexivity])
           ltac:(vm_compute; lia)).
Defined.

Lemma saved_file_size_witness :
  exists f,
    Linux.h_file (Linux.jsfSaveToFlash 3 example_heap Linux.host0) = Some f
    /\ length f = 8%nat
    /\ (length f <= 4 + 6 + 3)%nat.
Proof. apply (saved_file_size 3 example_heap Linux.host0 eq_refl). Defined.
